(** * ChaCha keystream XOR and the EAX mode: a shallow embedding

    The development follows the two source files

      - [chacha20/chacha/chacha_amd64.go]: the one-shot [XORKeyStream], the
        constructor [NewCipher] and the resumable [Cipher.XORKeyStream];
      - [cipher/eax.go]: [NewEAX], [Seal], [Open] and the counter-mode
        helper [ctrCrypt].

    Go's [int] is modelled by [Z], a byte by a [Z] (kept below 256 by the
    operations that produce one), a byte slice by the list of its [len]
    elements.  Re-slicing a slice beyond its length is taken to be out of
    range (the capacity of a slice equals its length). *)

From Stdlib Require Import String ZArith List Lia Bool.
Import ListNotations.
Local Open Scope Z_scope.

(** ** Go slices and outcomes *)

Module Go.

Definition byte := Z.

(** [len(s)] *)
Definition len {A : Type} (s : list A) : Z := Z.of_nat (List.length s).

(** [s[i:]] *)
Definition from {A : Type} (s : list A) (i : Z) : list A := skipn (Z.to_nat i) s.

(** [s[:j]] *)
Definition upto {A : Type} (s : list A) (j : Z) : list A := firstn (Z.to_nat j) s.

(** [s[i:j]] *)
Definition sub {A : Type} (s : list A) (i j : Z) : list A := upto (from s i) (j - i).

(** [make([]byte, n)] *)
Definition make (n : Z) : list byte := repeat 0 (Z.to_nat n).

(** Modelled from the spec: the error values of the parent package
    ([crypto.NonceSizeError], [crypto.AuthenticationError]), which is not
    part of the sources; [ErrorString] is an error made by [errors.New]. *)
Inductive error : Type :=
| NonceSizeError (n : Z)
| AuthenticationError
| ErrorString (msg : string).

(** What a call panics with: a string, an error value, or the panic of the
    Go runtime on an index or a slice bound out of range. *)
Inductive panic : Type :=
| Msg (msg : string)
| ErrorValue (e : error)
| OutOfRange.

(** [copy(dst, src)]: overwrites the front of [dst], up to the shorter
    length. *)
Definition copy (dst src : list byte) : list byte :=
  let n := Z.min (len dst) (len src) in upto src n ++ from dst n.

(** [s[i] = v], for an index in range. *)
Definition store (s : list byte) (i : Z) (v : byte) : list byte :=
  if (0 <=? i) && (i <? len s) then upto s i ++ v :: from s (i + 1) else s.

(** A call either returns or panics. *)
Inductive result (A : Type) : Type :=
| Ok (a : A)
| Panic (p : panic).
Arguments Ok {A} a.
Arguments Panic {A} p.

(** A Go return of type [(T, error)]. *)
Inductive errorOr (A : Type) : Type :=
| Val (a : A)
| Err (e : error).
Arguments Val {A} a.
Arguments Err {A} e.

(** Byte-wise XOR of two lists, as long as the shorter one. *)
Fixpoint xor_bytes (a b : list byte) : list byte :=
  match a, b with
  | x :: a', y :: b' => Z.lxor x y :: xor_bytes a' b'
  | _, _ => []
  end.

(** Modelled from the spec: [crypto.XOR(dst, src, with) int] of the parent
    package, which is not part of the sources.  It XORs [src] with [with]
    byte by byte over the shorter of the two, writes the result to the front
    of [dst] and returns the number of bytes written (the callers compare
    that number with [len(src)]).  A [dst] shorter than that is out of
    range: [None]. *)
Definition XOR (dst src w : list byte) : option (list byte * Z) :=
  let n := Z.min (len src) (len w) in
  if len dst <? n then None
  else Some (xor_bytes src w ++ from dst n, n).

End Go.

(** ** [chacha20/chacha] *)

Module Chacha.
Import Go.

(** *** Little-endian words *)

(** The integer held by a run of bytes, least significant byte first. *)
Fixpoint le_combine (l : list byte) : Z :=
  match l with
  | [] => 0
  | b :: t => Z.lor b (Z.shiftl (le_combine t) 8)
  end.

(** The [n] low bytes of [w], least significant byte first. *)
Fixpoint le_split (n : nat) (w : Z) : list byte :=
  match n with
  | O => []
  | S n' => (w mod 256) :: le_split n' (Z.shiftr w 8)
  end.

(** Reading [keyPtr[i]], where [keyPtr] views the bytes of [b] as an array
    of [uint64]: the 64-bit word at byte offset [8 i] (amd64 is
    little-endian). *)
Definition get64 (b : list byte) (i : Z) : Z := le_combine (sub b (8 * i) (8 * i + 8)).

(** Reading the [uint64] that starts at [&b[o]]. *)
Definition read64 (b : list byte) (o : Z) : Z := le_combine (sub b o (o + 8)).

(** Writing [statePtr[i] = v]. *)
Definition put64 (b : list byte) (i : Z) (v : Z) : list byte :=
  upto b (8 * i) ++ le_split 8 v ++ from b (8 * i + 8).

(** Modelled from the spec: the package variable [constants], declared in a
    file that is not part of the sources; the four fixed words of the
    ChaCha state ("expand 32-byte k"). *)
Definition constants : list byte :=
  [101; 120; 112; 97; 110; 100; 32; 51; 50; 45; 98; 121; 116; 101; 32; 107].

(** *** The round engine *)

Definition add32 (a b : Z) : Z := (a + b) mod 2 ^ 32.

Definition rotl32 (x n : Z) : Z :=
  Z.lor (Z.shiftl x n mod 2 ^ 32) (Z.shiftr x (32 - n)).

Definition word (x : list Z) (i : nat) : Z := nth i x 0.

Fixpoint set_word (x : list Z) (i : nat) (v : Z) : list Z :=
  match x, i with
  | [], _ => []
  | _ :: t, O => v :: t
  | h :: t, S i' => h :: set_word t i' v
  end.

(** One quarter-round on the words at positions [a], [b], [c], [d]. *)
Definition quarter (a b c d : nat) (x : list Z) : list Z :=
  let xa := add32 (word x a) (word x b) in
  let xd := rotl32 (Z.lxor (word x d) xa) 16 in
  let xc := add32 (word x c) xd in
  let xb := rotl32 (Z.lxor (word x b) xc) 12 in
  let xa := add32 xa xb in
  let xd := rotl32 (Z.lxor xd xa) 8 in
  let xc := add32 xc xd in
  let xb := rotl32 (Z.lxor xb xc) 7 in
  set_word (set_word (set_word (set_word x a xa) b xb) c xc) d xd.

(** Four quarter-rounds over the columns, then four over the diagonals. *)
Definition double_round (x : list Z) : list Z :=
  let x := quarter 0 4 8 12 x in
  let x := quarter 1 5 9 13 x in
  let x := quarter 2 6 10 14 x in
  let x := quarter 3 7 11 15 x in
  let x := quarter 0 5 10 15 x in
  let x := quarter 1 6 11 12 x in
  let x := quarter 2 7 8 13 x in
  quarter 3 4 9 14 x.

(** The sixteen little-endian words of a 64-byte block, and back. *)
Definition unpack (b : list byte) : list Z :=
  map (fun i => le_combine (sub b (4 * Z.of_nat i) (4 * Z.of_nat i + 4))) (seq 0 16).

Definition pack (x : list Z) : list byte :=
  flat_map (fun i => le_split 4 (word x i)) (seq 0 16).

(** Modelled from the spec: [Core(dst, state, rounds)], implemented in
    assembly that is not part of the sources.  The keystream block is the
    serialization of the mixed state added word by word to the state before
    mixing. *)
Definition core_block (state : list byte) (rounds : Z) : list byte :=
  let x := unpack state in
  let y := Nat.iter (Z.to_nat (rounds / 2)) double_round x in
  pack (map (fun i => add32 (word y i) (word x i)) (seq 0 16)).

(** Modelled from the spec: the side effect of [Core] on the state, the
    counter word (word 12) incremented modulo 2^32. *)
Definition core_next (state : list byte) : list byte :=
  upto state 48 ++ le_split 4 (add32 (le_combine (sub state 48 52)) 1) ++ from state 52.

Definition Core (state : list byte) (rounds : Z) : list byte * list byte :=
  (core_block state rounds, core_next state).

(** Modelled from the spec: [XORBlocks(dst, src, state, rounds)], also in
    assembly.  Its declaration in the source documents it: it XORs the full
    64-byte blocks of [src], one keystream block each, advancing the
    counter, and does nothing when [len(src) > len(dst)]. *)
Fixpoint XORBlocks_loop (k : nat) (dst src state : list byte) (rounds : Z)
  : list byte * list byte :=
  match k with
  | O => (dst, state)
  | S k' =>
      let '(blk, state') := Core state rounds in
      let '(rest, state'') := XORBlocks_loop k' (from dst 64) (from src 64) state' rounds in
      (xor_bytes (upto src 64) blk ++ rest, state'')
  end.

Definition XORBlocks (dst src state : list byte) (rounds : Z) : list byte * list byte :=
  if len dst <? len src then (dst, state)
  else XORBlocks_loop (Z.to_nat (len src / 64)) dst src state rounds.

(** *** The state initializer, as both entry points write it *)

Definition init_state (nonce key : list byte) (w6 : Z) : list byte :=
  let state := copy (make 64) constants in
  let state := put64 state 2 (get64 key 0) in
  let state := put64 state 3 (get64 key 1) in
  let state := put64 state 4 (get64 key 2) in
  let state := put64 state 5 (get64 key 3) in
  let state := put64 state 6 w6 in
  put64 state 7 (read64 nonce 4).

(** *** The one-shot [XORKeyStream] *)

Definition XORKeyStream (dst src nonce key : list byte) (counter rounds : Z)
  : result (list byte) :=
  let length := len src in
  if len dst <? length then Panic (Msg "chacha20/chacha: dst buffer is to small")
  else if (rounds <=? 0) || negb (Z.rem rounds 2 =? 0)
  then Panic (Msg "chacha20/chacha: rounds must be a multiple of 2")
  else
    let state :=
      init_state nonce key (Z.lor (Z.shiftl (read64 nonce 0) 32 mod 2 ^ 64) counter) in
    let '(dst, state) :=
      if 64 <=? length then XORBlocks dst src state rounds else (dst, state) in
    let n := Z.land length (Z.lnot (64 - 1)) in
    if 0 <? length - n then
      let '(block, state) := Core state rounds in
      match XOR (from dst n) (from src n) block with
      | Some (tail, _) => Ok (upto dst n ++ tail)
      | None => Panic OutOfRange
      end
    else Ok dst.

(** *** The resumable cipher *)

(** Modelled from the spec: the struct [Cipher], declared in a file that is
    not part of the sources; these are the fields the methods use: the
    state, the last keystream block, the offset into it and the round
    count. *)
Record Cipher : Type := mkCipher {
  state : list byte;
  block : list byte;
  off : Z;
  rounds : Z
}.

Definition NewCipher (nonce key : list byte) (rounds : Z) : result Cipher :=
  if (rounds <=? 0) || negb (Z.rem rounds 2 =? 0)
  then Panic (Msg "chacha20/chacha: rounds must be a multiply of 2")
  else
    Ok {| state := init_state nonce key (Z.shiftl (read64 nonce 0) 32 mod 2 ^ 64);
          block := make 64;
          off := 0;
          rounds := rounds |}.

(** Lines 101 to 109 of [Cipher.XORKeyStream]: the full blocks, then the
    partial one, whose keystream block stays in [c.block]. *)
Definition xor_rest (c : Cipher) (dst src : list byte) : Cipher * result (list byte) :=
  let length := len src in
  let '(dst, st) :=
    if 64 <=? length then XORBlocks dst src (state c) (rounds c) else (dst, state c) in
  let c := {| state := st; block := block c; off := off c; rounds := rounds c |} in
  let n := Z.land length (Z.lnot (64 - 1)) in
  if 0 <? length - n then
    let '(blk, st) := Core (state c) (rounds c) in
    let c := {| state := st; block := blk; off := off c; rounds := rounds c |} in
    match XOR (from dst n) (from src n) (block c) with
    | Some (tail, k) =>
        ({| state := state c; block := block c; off := off c + k; rounds := rounds c |},
         Ok (upto dst n ++ tail))
    | None => (c, Panic OutOfRange)
    end
  else (c, Ok dst).

(** [Cipher.XORKeyStream]: the cipher after the call and [dst] after the
    call. *)
Definition Cipher_XORKeyStream (c : Cipher) (dst src : list byte)
  : Cipher * result (list byte) :=
  let length := len src in
  if len dst <? length then (c, Panic (Msg "chacha20/chacha: dst buffer is to small"))
  else if 0 <? off c then
    match XOR dst src (from (block c) (off c)) with
    | Some (dst, n) =>
        if n =? length then
          ({| state := state c; block := block c; off := off c + n; rounds := rounds c |},
           Ok dst)
        else
          let c := {| state := state c; block := block c; off := 0; rounds := rounds c |} in
          let '(c, r) := xor_rest c (from dst n) (from src n) in
          (c, match r with
              | Ok rest => Ok (upto dst n ++ rest)
              | Panic p => Panic p
              end)
    | None => (c, Panic OutOfRange)
    end
  else xor_rest c dst src.

(** *** The keystream as a sequence of blocks *)

(** The state after [k] blocks were generated. *)
Fixpoint adv (k : nat) (st : list byte) : list byte :=
  match k with
  | O => st
  | S k' => adv k' (core_next st)
  end.

(** The first [k] keystream blocks from state [st]. *)
Fixpoint keystream (k : nat) (st : list byte) (r : Z) : list byte :=
  match k with
  | O => []
  | S k' => core_block st r ++ keystream k' (core_next st) r
  end.

(** The cipher [xor_rest] leaves behind after [l] bytes. *)
Definition rest_cipher (c : Cipher) (l : nat) : Cipher :=
  let a := (l / 64)%nat in
  if (l mod 64 =? 0)%nat
  then {| state := adv a (state c); block := block c; off := off c; rounds := rounds c |}
  else {| state := adv (S a) (state c);
          block := core_block (adv a (state c)) (rounds c);
          off := off c + Z.of_nat (l mod 64);
          rounds := rounds c |}.

(** [aligned st0 r c q]: the cipher [c], started in state [st0] with [r]
    rounds, has consumed the keystream up to byte [position c q]; block [q]
    is the one it is in when [off c] is positive. *)
Definition aligned (st0 : list byte) (r : Z) (c : Cipher) (q : nat) : Prop :=
  rounds c = r /\ 0 <= off c <= 64 /\
  ((off c = 0 /\ state c = adv q st0) \/
   (0 < off c /\ state c = adv (S q) st0 /\ block c = core_block (adv q st0) r)).

Definition position (c : Cipher) (q : nat) : nat := (64 * q + Z.to_nat (off c))%nat.

(** The states a resumable cipher goes through. *)
Inductive reachable : Cipher -> Prop :=
| reach_new nonce key rounds c :
    NewCipher nonce key rounds = Ok c -> reachable c
| reach_call c dst src :
    reachable c -> reachable (fst (Cipher_XORKeyStream c dst src)).

(** A call [(dst, src)] whose destination is large enough. *)
Definition fits (call : list byte * list byte) : Prop := len (snd call) <= len (fst call).

(** One call per pair [(dst, src)], the outputs [dst[:len(src)]] put end
    to end. *)
Fixpoint feed (c : Cipher) (calls : list (list byte * list byte)) : result (list byte) :=
  match calls with
  | [] => Ok []
  | (dst, src) :: calls' =>
      match Cipher_XORKeyStream c dst src with
      | (c', Ok out) =>
          match feed c' calls' with
          | Ok outs => Ok (upto out (len src) ++ outs)
          | Panic p => Panic p
          end
      | (_, Panic p) => Panic p
      end
  end.

(** The ChaCha20 cipher [NewCipher] makes for the all-zero key and nonce,
    and that cipher fed ten bytes, then fifty-four. *)
Definition zero_cipher : Cipher :=
  {| state := init_state (make 12) (make 32) (Z.shiftl (read64 (make 12) 0) 32 mod 2 ^ 64);
     block := make 64;
     off := 0;
     rounds := 20 |}.

(** Three calls of 10, 70 and 5 bytes. *)
Definition three_calls : list (list byte * list byte) :=
  [(make 10, map Z.of_nat (seq 1 10));
   (make 80, map Z.of_nat (seq 11 70));
   (make 5, map Z.of_nat (seq 81 5))].

Definition ten_then_fifty_four : Cipher :=
  let c := fst (Cipher_XORKeyStream zero_cipher (make 10) (make 10)) in
  fst (Cipher_XORKeyStream c (make 54) (make 54)).

(** What the three calls yield, and two calls of 40 and 45 bytes that take
    it back in. *)
Definition three_calls_output : list byte :=
  match feed zero_cipher three_calls with
  | Ok out => out
  | Panic _ => []
  end.

Definition two_calls_back : list (list byte * list byte) :=
  [(make 40, upto three_calls_output 40); (make 45, from three_calls_output 40)].

End Chacha.

(** ** [cipher]: the EAX mode *)

Module EAX.
Import Go.

(** [cipher.Block], the block cipher the caller supplies: its block size
    and the encryption of one block. *)
Class Block : Type := {
  BlockSize : Z;
  Encrypt : list byte -> list byte;
  BlockSize_pos : 0 < BlockSize;
  Encrypt_len : forall b, len b = BlockSize -> len (Encrypt b) = BlockSize
}.

(** Modelled from the spec: the package [cmac], which is not part of the
    sources.  [cmac.New] either rejects the block cipher with an error or
    returns a [hash.Hash] whose block size and output size are the block
    size of the cipher; [digest m] is the MAC of the bytes [m] written
    since the last reset. *)
Class CMac (B : Block) : Type := {
  New_error : option error;
  digest : list byte -> list byte;
  digest_len : forall m, len (digest m) = BlockSize
}.

Definition nTag : byte := 0.
Definition hTag : byte := 1.
Definition cTag : byte := 2.

(** [subtle.ConstantTimeCompare]: 1 when the two slices have the same
    length and contents, 0 otherwise. *)
Fixpoint bytes_eqb (x y : list byte) : bool :=
  match x, y with
  | [], [] => true
  | a :: x', b :: y' => (a =? b) && bytes_eqb x' y'
  | _, _ => false
  end.

Definition ConstantTimeCompare (x y : list byte) : Z := if bytes_eqb x y then 1 else 0.

Section WithCipher.
Context {B : Block} {M : CMac B}.

(** [hash.Hash]: the state of the MAC is the bytes written since the last
    reset. *)
Definition Write (m p : list byte) : list byte := m ++ p.
Definition Sum (m b : list byte) : list byte := b ++ digest m.
Definition Reset (m : list byte) : list byte := [].
Definition mac_BlockSize : Z := BlockSize.
Definition mac_Size : Z := BlockSize.

(** The struct [eaxCipher]; the field [blockCipher] is the instance [B]. *)
Record eaxCipher : Type := mkEAX {
  ctr : list byte;
  block : list byte;
  mac : list byte;
  size : Z
}.

Definition with_ctr (c : eaxCipher) (v : list byte) : eaxCipher :=
  {| ctr := v; block := block c; mac := mac c; size := size c |}.
Definition with_block (c : eaxCipher) (v : list byte) : eaxCipher :=
  {| ctr := ctr c; block := v; mac := mac c; size := size c |}.
Definition with_mac (c : eaxCipher) (v : list byte) : eaxCipher :=
  {| ctr := ctr c; block := block c; mac := v; size := size c |}.

Definition NewEAX (tagsize : Z) : errorOr eaxCipher :=
  match New_error with
  | Some err => Err err
  | None =>
      if (tagsize <? 1) || (BlockSize <? tagsize)
      then Err (ErrorString "tagSize must between 1 and BlockSize() of the given cipher")
      else Val {| ctr := make BlockSize;
                  block := make BlockSize;
                  mac := [];
                  size := tagsize |}
  end.

Definition NonceSize (c : eaxCipher) : Z := BlockSize.

Definition Overhead (c : eaxCipher) : Z := size c.

(** The loop [for k := len(c.ctr) - 1; k >= 0; k--] of [ctrCrypt]; [k] counts
    the bytes not yet visited, the current index is [k - 1]. *)
Fixpoint increment (k : nat) (ctr : list byte) : list byte :=
  match k with
  | O => ctr
  | S k' =>
      let v := (nth k' ctr 0 + 1) mod 256 in
      let ctr := store ctr (Z.of_nat k') v in
      if v =? 0 then increment k' ctr else ctr
  end.

(** The integer a register holds, most significant byte first. *)
Definition be_value (l : list byte) : Z := fold_left (fun acc b => acc * 256 + b) l 0.

(** The values a byte takes. *)
Definition is_byte (b : byte) : Prop := 0 <= b < 256.

(** The loop [for i := 0; i < n; i += bs] of [ctrCrypt].  [fuel] bounds the
    number of iterations.  The block cipher writes [c.block] first; slicing
    [dst[i:j]] or [src[i:j]] beyond the length is then out of range. *)
Fixpoint ctr_loop (fuel : nat) (i n : Z) (c : eaxCipher) (dst src : list byte)
  : eaxCipher * list byte * result unit :=
  match fuel with
  | O => (c, dst, Ok tt)
  | S fuel' =>
      if i <? n then
        let j := i + BlockSize in
        let c := with_block c (Encrypt (ctr c)) in
        if (j <=? len dst) && (j <=? len src) then
          match XOR (sub dst i j) (sub src i j) (block c) with
          | Some (d, _) =>
              let dst := upto dst i ++ d ++ from dst j in
              let c := with_ctr c (increment (length (ctr c)) (ctr c)) in
              ctr_loop fuel' (i + BlockSize) n c dst src
          | None => (c, dst, Panic OutOfRange)
          end
        else (c, dst, Panic OutOfRange)
      else (c, dst, Ok tt)
  end.

(** [ctrCrypt]: the cipher and [dst] after the call.  The loop runs at most
    [n] times, the block size being positive. *)
Definition ctrCrypt (c : eaxCipher) (dst src : list byte)
  : eaxCipher * list byte * result unit :=
  let length := len src in
  let bs := BlockSize in
  let n := Z.land length (Z.lnot (length - bs)) in
  let '(c, dst, r) := ctr_loop (S (Z.to_nat n)) 0 n c dst src in
  match r with
  | Panic p => (c, dst, Panic p)
  | Ok _ =>
      if n <? length then
        let c := with_block c (Encrypt (ctr c)) in
        if n <=? len dst then
          match XOR (from dst n) (from src n) (block c) with
          | Some (d, _) => (c, upto dst n ++ d, Ok tt)
          | None => (c, dst, Panic OutOfRange)
          end
        else (c, dst, Panic OutOfRange)
      else (c, dst, Ok tt)
  end.

(** The three MAC passes of [Seal] and [Open] write a block of zeros whose
    last byte is the domain tag, then the payload. *)
Definition tagged (tag : list byte) (t : byte) : list byte := store tag (len tag - 1) t.

(** [Seal]: the cipher after the call and the returned slice. *)
Definition Seal (c : eaxCipher) (dst nonce plaintext additionalData : list byte)
  : eaxCipher * result (list byte) :=
  if negb (len nonce =? BlockSize) then (c, Panic (ErrorValue (NonceSizeError (len nonce))))
  else if len dst <? len plaintext then (c, Panic (Msg "dst buffer to small"))
  else
    let tag := make mac_BlockSize in
    (* process nonce *)
    let tag := tagged tag nTag in
    let m := Write (Write (mac c) tag) nonce in
    let authNonce := Sum m [] in
    let m := Reset m in
    (* process additional data *)
    let tag := tagged tag hTag in
    let m := Write (Write m tag) additionalData in
    let authData := Sum m [] in
    let m := Reset m in
    (* encrypt *)
    let n := len plaintext in
    let c := with_mac (with_ctr c (copy (ctr c) authNonce)) m in
    let '(c, dst, r) := ctrCrypt c dst plaintext in
    match r with
    | Panic p => (c, Panic p)
    | Ok _ =>
        (* process ciphertext *)
        let tag := tagged tag cTag in
        let m := Write (Write (mac c) tag) (upto dst n) in
        let tag := Sum m (upto tag 0) in
        let m := Reset m in
        let tag := xor_bytes tag (xor_bytes authData authNonce) in
        (with_mac c m, Ok (upto dst n ++ upto tag (size c)))
    end.

(** [Open]: the cipher after the call, [dst] after the call, and what is
    returned. *)
Definition Open (c : eaxCipher) (dst nonce ciphertext additionalData : list byte)
  : eaxCipher * list byte * result (errorOr (list byte)) :=
  if negb (len nonce =? BlockSize) then (c, dst, Ok (Err (NonceSizeError (len nonce))))
  else if len ciphertext <? size c then (c, dst, Ok (Err AuthenticationError))
  else if len dst <? len ciphertext - mac_Size then (c, dst, Panic (Msg "dst buffer to small"))
  else
    let hash := from ciphertext (len ciphertext - size c) in
    let ciphertext := upto ciphertext (len ciphertext - size c) in
    let tag := make mac_BlockSize in
    (* process nonce *)
    let tag := tagged tag nTag in
    let m := Write (Write (mac c) tag) nonce in
    let authNonce := Sum m [] in
    let m := Reset m in
    (* process additional data *)
    let tag := tagged tag hTag in
    let m := Write (Write m tag) additionalData in
    let authData := Sum m [] in
    let m := Reset m in
    (* process ciphertext *)
    let tag := tagged tag cTag in
    let m := Write (Write m tag) ciphertext in
    let tag := Sum m (upto tag 0) in
    let m := Reset m in
    let tag := xor_bytes tag (xor_bytes authData authNonce) in
    let c := with_mac c m in
    if negb (ConstantTimeCompare (upto tag (size c)) hash =? 1)
    then (c, dst, Ok (Err AuthenticationError))
    else
      (* decrypt *)
      let n := len ciphertext in
      let c := with_ctr c (copy (ctr c) authNonce) in
      let '(c, dst, r) := ctrCrypt c dst ciphertext in
      match r with
      | Panic p => (c, dst, Panic p)
      | Ok _ =>
          if n <=? len dst then (c, dst, Ok (Val (upto dst n)))
          else (c, dst, Panic OutOfRange)
      end.

(** The states of an EAX cipher made with tag size [tagsize]. *)
Inductive reachable (tagsize : Z) : eaxCipher -> Prop :=
| reach_NewEAX c :
    NewEAX tagsize = Val c -> reachable tagsize c
| reach_Seal c dst nonce plaintext additionalData :
    reachable tagsize c ->
    reachable tagsize (fst (Seal c dst nonce plaintext additionalData))
| reach_Open c dst nonce ciphertext additionalData :
    reachable tagsize c ->
    reachable tagsize (fst (fst (Open c dst nonce ciphertext additionalData))).

(** What the scratch state of a cipher always satisfies between calls. *)
Definition idle (c : eaxCipher) : Prop :=
  len (ctr c) = BlockSize /\ mac c = [] /\ 1 <= size c <= BlockSize.

(** The block of zeros ending in the domain tag [t]. *)
Definition prefix (t : byte) : list byte := make (BlockSize - 1) ++ [t].

(** The tag both [Seal] and [Open] compute for a ciphertext body. *)
Definition auth_tag (nonce body additionalData : list byte) (tagsize : Z) : list byte :=
  upto (xor_bytes (digest (prefix cTag ++ body))
          (xor_bytes (digest (prefix hTag ++ additionalData))
                     (digest (prefix nTag ++ nonce))))
       tagsize.

(** What the counter-mode core, its register set to the MAC of the nonce,
    leaves in [dst[:len(src)]]. *)
Definition ctr_body (c : eaxCipher) (dst nonce src : list byte) : list byte :=
  upto (snd (fst (ctrCrypt (with_ctr c (digest (prefix nTag ++ nonce))) dst src))) (len src).

(** The counter register after [k] increments, and the keystream of [k]
    blocks from a counter register on. *)
Fixpoint ctr_adv (k : nat) (ctr : list byte) : list byte :=
  match k with
  | O => ctr
  | S k' => ctr_adv k' (increment (length ctr) ctr)
  end.

Fixpoint ctr_stream (k : nat) (ctr : list byte) : list byte :=
  match k with
  | O => []
  | S k' => Encrypt ctr ++ ctr_stream k' (increment (length ctr) ctr)
  end.

(** The block size is a power of two, as it is for the block ciphers CMAC
    is defined on. *)
Definition power_of_two (n : Z) : Prop := exists k, 0 <= k /\ n = 2 ^ k.

End WithCipher.

(** *** A block cipher and a MAC to run the code on *)

(** A 16-byte permutation standing for a block cipher. *)
Definition toy_encrypt (b : list byte) : list byte :=
  map (fun i => Z.lxor (nth ((i + 1) mod 16) b 0) ((17 * Z.of_nat i + 3) mod 256)) (seq 0 16).

Definition toy_encrypt_len (b : list byte) (H : len b = 16) : len (toy_encrypt b) = 16 :=
  eq_refl.

Definition toy_block : Block :=
  {| BlockSize := 16;
     Encrypt := toy_encrypt;
     BlockSize_pos := eq_refl;
     Encrypt_len := toy_encrypt_len |}.

(** A 16-byte checksum standing for CMAC. *)
Definition toy_digest (m : list byte) : list byte :=
  map (fun i => fold_left (fun acc x => (acc * 31 + x + 7) mod 256) m (Z.of_nat i)) (seq 0 16).

Definition toy_digest_len (m : list byte) : len (toy_digest m) = 16 := eq_refl.

Definition toy_mac : CMac toy_block :=
  @Build_CMac toy_block None toy_digest toy_digest_len.

(** The cipher [NewEAX] makes from them for a tag size. *)
Definition toy_eax (tagsize : Z) : eaxCipher :=
  {| ctr := make 16; block := make 16; mac := []; size := tagsize |}.

(** The bytes 1, 2, ..., [n]. *)
Definition count_up (n : nat) : list byte := map Z.of_nat (seq 1 n).

(** The cipher after sealing three bytes. *)
Definition toy_eax_used : eaxCipher :=
  fst (@Seal toy_block toy_mac (toy_eax 16) (make 3) (make 16) (count_up 3) []).

(** Twenty bytes sealed with a four-byte tag, the last byte of the tag
    altered. *)
Definition forged : list byte :=
  match @Seal toy_block toy_mac (toy_eax 4) (make 16) (make 16) (count_up 16) [] with
  | (_, Ok sealed) => upto sealed 19 ++ [Z.lxor (nth 19 sealed 0) 1]
  | (_, Panic _) => []
  end.

(** Sixteen bytes sealed with a four-byte tag, and the cipher after that
    call. *)
Definition toy_sealed : list byte :=
  match @Seal toy_block toy_mac (toy_eax 4) (make 16) (make 16) (count_up 16) [] with
  | (_, Ok sealed) => sealed
  | (_, Panic _) => []
  end.


End EAX.

(** ** Facts about [chacha20/chacha] *)

Module ChachaFacts.
Import Go Chacha.

(** The published first keystream block of ChaCha20 for the all-zero key
    and nonce. *)
Example chacha20_zero_block :
  core_block (init_state (make 12) (make 32) 0) 20
  = [118; 184; 224; 173; 160; 241; 61; 144; 64; 93; 106; 229; 83; 134; 189; 40;
     189; 210; 25; 184; 160; 141; 237; 26; 168; 54; 239; 204; 139; 119; 13; 199;
     218; 65; 89; 124; 81; 87; 72; 141; 119; 36; 224; 63; 184; 216; 74; 55;
     106; 67; 184; 244; 21; 24; 161; 28; 195; 135; 182; 105; 178; 238; 101; 134].
Proof. vm_compute. reflexivity. Qed.



(** *** Lists and masks *)

Lemma len_nonneg {A : Type} (l : list A) : 0 <= len l.
Proof. unfold len. lia. Qed.

Lemma div64_facts (n : nat) :
  n = (64 * (n / 64) + n mod 64)%nat /\ (n mod 64 < 64)%nat
  /\ Z.of_nat n / 64 = Z.of_nat (n / 64) /\ Z.of_nat n mod 64 = Z.of_nat (n mod 64).
Proof.
  repeat split.
  - apply Nat.div_mod_eq.
  - apply Nat.mod_upper_bound. lia.
  - now rewrite (Nat2Z.inj_div n 64).
  - now rewrite (Nat2Z.inj_mod n 64).
Qed.

(** Brings the quotient and the remainder of [n] by 64 within reach of
    [lia]. *)
Ltac div64 n :=
  let H1 := fresh "Hdiv" in let H2 := fresh "Hmod" in
  let H3 := fresh "HZdiv" in let H4 := fresh "HZmod" in
  destruct (div64_facts n) as (H1 & H2 & H3 & H4);
  rewrite ?H3, ?H4 in *.

Lemma block_mask (x : Z) : Z.land x (Z.lnot (64 - 1)) = 64 * (x / 64).
Proof.
  change (64 - 1) with (Z.ones 6).
  rewrite <- Z.ldiff_land, Z.ldiff_ones_r by lia.
  rewrite Z.shiftr_div_pow2, Z.shiftl_mul_pow2 by lia.
  change (2 ^ 6) with 64. lia.
Qed.

Lemma xor_bytes_length (a b : list byte) :
  length (xor_bytes a b) = Nat.min (length a) (length b).
Proof.
  revert b. induction a as [|x a IH]; intros [|y b]; simpl; auto.
Qed.

Lemma xor_bytes_nil_r (a : list byte) : xor_bytes a [] = [].
Proof. destruct a; reflexivity. Qed.

Lemma xor_bytes_app (a1 a2 b1 b2 : list byte) :
  length a1 = length b1 ->
  xor_bytes (a1 ++ a2) (b1 ++ b2) = xor_bytes a1 b1 ++ xor_bytes a2 b2.
Proof.
  revert b1. induction a1 as [|x a1 IH]; intros [|y b1] H; simpl in *; try discriminate.
  - reflexivity.
  - f_equal. apply IH. lia.
Qed.

Lemma xor_bytes_short (a b c : list byte) :
  (length a <= length b)%nat -> xor_bytes a (b ++ c) = xor_bytes a b.
Proof.
  revert b. induction a as [|x a IH]; intros [|y b] H; simpl in *; try lia; auto.
  f_equal. apply IH. lia.
Qed.

Lemma firstn_plus {A : Type} (a b : nat) (l : list A) :
  firstn (a + b) l = firstn a l ++ firstn b (skipn a l).
Proof.
  revert l. induction a as [|a IH]; intros [|x l]; simpl; auto.
  - now rewrite firstn_nil.
  - now rewrite IH.
Qed.

(** *** The keystream *)

Lemma pack_length (x : list Z) : length (pack x) = 64%nat.
Proof. reflexivity. Qed.

Lemma core_block_length (st : list byte) (r : Z) : length (core_block st r) = 64%nat.
Proof. unfold core_block. apply pack_length. Qed.

#[local] Arguments core_block : simpl never.
#[local] Arguments core_next : simpl never.

Lemma adv_S (k : nat) (st : list byte) : adv (S k) st = core_next (adv k st).
Proof. revert st. induction k as [|k IH]; intros st; [reflexivity|]. simpl in *. now rewrite IH. Qed.

Lemma adv_plus (a b : nat) (st : list byte) : adv (a + b) st = adv b (adv a st).
Proof. revert st. induction a as [|a IH]; intros st; simpl; auto. Qed.

Lemma keystream_length (k : nat) (st : list byte) (r : Z) :
  length (keystream k st r) = (64 * k)%nat.
Proof.
  revert st. induction k as [|k IH]; intros st; cbn [keystream]; [reflexivity|].
  rewrite length_app, core_block_length, IH. lia.
Qed.

Lemma keystream_app (a b : nat) (st : list byte) (r : Z) :
  keystream (a + b) st r = keystream a st r ++ keystream b (adv a st) r.
Proof.
  revert st. induction a as [|a IH]; intros st; cbn [keystream adv Nat.add]; [reflexivity|].
  now rewrite IH, app_assoc.
Qed.

Lemma keystream_S (a : nat) (st : list byte) (r : Z) :
  keystream (S a) st r = keystream a st r ++ core_block (adv a st) r.
Proof.
  replace (S a) with (a + 1)%nat by lia.
  rewrite keystream_app. cbn [keystream]. now rewrite app_nil_r.
Qed.

(** XOR against more blocks than the source needs is XOR against the
    blocks it needs. *)
Lemma xor_keystream_enough (src : list byte) (a K : nat) (st : list byte) (r : Z) :
  (length src <= 64 * a)%nat -> (a <= K)%nat ->
  xor_bytes src (keystream K st r) = xor_bytes src (keystream a st r).
Proof.
  intros Hs HK. replace K with (a + (K - a))%nat by lia.
  rewrite keystream_app. apply xor_bytes_short. rewrite keystream_length. lia.
Qed.

(** *** [XORBlocks] and the tail of [Cipher.XORKeyStream] *)

Lemma XORBlocks_loop_spec (k : nat) (r : Z) : forall dst src st,
  (64 * k <= length src)%nat -> (length src <= length dst)%nat ->
  XORBlocks_loop k dst src st r
  = (xor_bytes (firstn (64 * k) src) (keystream k st r) ++ skipn (64 * k) dst, adv k st).
Proof.
  induction k as [|k IH]; intros dst src st Hs Hd.
  - reflexivity.
  - cbn [XORBlocks_loop Core keystream adv]. unfold Core, from, upto.
    rewrite IH by (rewrite !length_skipn; lia).
    change (Z.to_nat 64) with 64%nat.
    replace (64 * S k)%nat with (64 + 64 * k)%nat by lia.
    rewrite firstn_plus, xor_bytes_app, skipn_skipn, <- app_assoc.
    + do 3 f_equal. f_equal. lia.
    + rewrite length_firstn, core_block_length. lia.
Qed.

Lemma XORBlocks_spec (dst src st : list byte) (r : Z) :
  (length src <= length dst)%nat ->
  (if 64 <=? len src then XORBlocks dst src st r else (dst, st))
  = (xor_bytes (firstn (64 * (length src / 64)) src) (keystream (length src / 64) st r)
       ++ skipn (64 * (length src / 64)) dst,
     adv (length src / 64) st).
Proof.
  intros Hd. unfold len. destruct (64 <=? Z.of_nat (length src)) eqn:E.
  - unfold XORBlocks, len.
    destruct (Z.of_nat (length dst) <? Z.of_nat (length src)) eqn:E'; [lia|].
    div64 (length src). rewrite Nat2Z.id.
    apply XORBlocks_loop_spec; lia.
  - div64 (length src).
    replace (length src / 64)%nat with 0%nat by lia. reflexivity.
Qed.

Lemma XOR_Some (dst src w : list byte) :
  (Nat.min (length src) (length w) <= length dst)%nat ->
  XOR dst src w
  = Some (xor_bytes src w ++ skipn (Nat.min (length src) (length w)) dst,
          Z.of_nat (Nat.min (length src) (length w))).
Proof.
  intros H. unfold XOR, len, from.
  destruct (Z.of_nat (length dst) <? Z.min (Z.of_nat (length src)) (Z.of_nat (length w))) eqn:E;
    [lia|].
  replace (Z.min (Z.of_nat (length src)) (Z.of_nat (length w)))
    with (Z.of_nat (Nat.min (length src) (length w))) by lia.
  now rewrite Nat2Z.id.
Qed.

Lemma xor_rest_spec (c : Cipher) (dst src : list byte) (K : nat) :
  (length src <= length dst)%nat -> (length src <= 64 * K)%nat ->
  xor_rest c dst src
  = (rest_cipher c (length src),
     Ok (xor_bytes src (keystream K (state c) (rounds c)) ++ skipn (length src) dst)).
Proof.
  intros Hd HK. unfold xor_rest, rest_cipher.
  rewrite XORBlocks_spec by assumption. cbn [state block off rounds].
  rewrite block_mask. unfold Core, len, from, upto.
  div64 (length src).
  set (a := (length src / 64)%nat) in *. set (m := (length src mod 64)%nat) in *.
  replace (Z.to_nat (64 * Z.of_nat a)) with (64 * a)%nat by lia.
  assert (Hx : length (xor_bytes (firstn (64 * a) src) (keystream a (state c) (rounds c)))
               = (64 * a)%nat).
  { rewrite xor_bytes_length, length_firstn, keystream_length. lia. }
  destruct (0 <? Z.of_nat (length src) - 64 * Z.of_nat a) eqn:E.
  - destruct (m =? 0)%nat eqn:E'; [apply Nat.eqb_eq in E'; lia|].
    cbn [state block off rounds].
    rewrite skipn_app, Hx, Nat.sub_diag, skipn_all2 by lia. cbn [app skipn].
    rewrite XOR_Some by (rewrite !length_skipn, core_block_length; lia).
    rewrite !length_skipn, core_block_length.
    replace (Nat.min (length src - 64 * a) 64) with m by lia.
    rewrite adv_S. f_equal. f_equal.
    rewrite firstn_app, Hx, Nat.sub_diag, firstn_all2 by lia. cbn [firstn].
    rewrite app_nil_r, skipn_skipn.
    replace (m + 64 * a)%nat with (length src) by lia.
    rewrite app_assoc. f_equal.
    rewrite (xor_keystream_enough src (S a) K) by lia.
    rewrite keystream_S.
    rewrite <- (firstn_skipn (64 * a) src) at 3.
    rewrite xor_bytes_app; [reflexivity|].
    rewrite length_firstn, keystream_length. lia.
  - destruct (m =? 0)%nat eqn:E'; [|apply Nat.eqb_neq in E'; lia].
    apply Nat.eqb_eq in E'. f_equal. f_equal.
    assert (Hl : (64 * a = length src)%nat) by lia.
    rewrite Hl, firstn_all. f_equal.
    symmetry. apply (xor_keystream_enough src a K); lia.
Qed.

Lemma xor_bytes_split (a1 a2 b : list byte) :
  (length a1 <= length b)%nat ->
  xor_bytes (a1 ++ a2) b = xor_bytes a1 b ++ xor_bytes a2 (skipn (length a1) b).
Proof.
  revert b. induction a1 as [|x a1 IH]; intros b H.
  - reflexivity.
  - destruct b as [|y b]; simpl in *; [lia|]. f_equal. apply IH. lia.
Qed.

Lemma xor_bytes_split_r (a b1 b2 : list byte) :
  (length b1 <= length a)%nat ->
  xor_bytes a (b1 ++ b2) = xor_bytes a b1 ++ xor_bytes (skipn (length b1) a) b2.
Proof.
  revert a. induction b1 as [|y b1 IH]; intros a H.
  - now rewrite xor_bytes_nil_r.
  - destruct a as [|x a]; simpl in *; [lia|]. f_equal. apply IH. lia.
Qed.

(** The keystream from byte [64 q] on. *)
Lemma skipn_keystream (q K : nat) (st : list byte) (r : Z) :
  (q <= K)%nat ->
  skipn (64 * q) (keystream K st r) = keystream (K - q) (adv q st) r.
Proof.
  intros H. replace K with (q + (K - q))%nat at 1 by lia.
  rewrite keystream_app, skipn_app, keystream_length, Nat.sub_diag, skipn_all2
    by (rewrite keystream_length; lia).
  reflexivity.
Qed.

Lemma aligned_rest (st0 : list byte) (r : Z) (c : Cipher) (q l : nat) :
  rounds c = r -> off c = 0 -> state c = adv q st0 ->
  exists q', aligned st0 r (rest_cipher c l) q'
             /\ position (rest_cipher c l) q' = (64 * q + l)%nat.
Proof.
  intros Hr Ho Hs. exists (q + l / 64)%nat. unfold rest_cipher, aligned, position.
  div64 l. set (a := (l / 64)%nat) in *. set (m := (l mod 64)%nat) in *.
  destruct (m =? 0)%nat eqn:E; cbn [state block off rounds].
  - apply Nat.eqb_eq in E. rewrite Hs, Ho, adv_plus. repeat split; try lia.
    left. split; reflexivity.
  - apply Nat.eqb_neq in E. rewrite Hs, Ho, Hr. repeat split; try lia.
    right. split; [lia|]. split.
    + replace (S (q + a)) with (q + S a)%nat by lia. now rewrite adv_plus.
    + now rewrite adv_plus.
Qed.

(** One call of [Cipher.XORKeyStream]: it XORs [src] against the keystream
    from its position on and moves by [len(src)]. *)
Lemma call_spec (st0 : list byte) (r : Z) (c : Cipher) (q : nat) (dst src : list byte) (K : nat) :
  aligned st0 r c q ->
  (length src <= length dst)%nat ->
  (position c q + length src <= 64 * K)%nat ->
  exists c' q',
    Cipher_XORKeyStream c dst src
    = (c', Ok (xor_bytes src (skipn (position c q) (keystream K st0 r))
               ++ skipn (length src) dst))
    /\ aligned st0 r c' q'
    /\ position c' q' = (position c q + length src)%nat.
Proof.
  intros (Hr & Hoff & Hal) Hd HK. unfold Cipher_XORKeyStream.
  destruct (len dst <? len src) eqn:E; [unfold len in E; lia|]. clear E.
  unfold position in *.
  destruct Hal as [(Ho & Hs) | (Ho & Hs & Hb)].
  - (* between two blocks *)
    rewrite Ho in *. cbn [Z.ltb Z.compare].
    rewrite (xor_rest_spec c dst src (K - q)) by lia.
    destruct (aligned_rest st0 r c q (length src) Hr Ho Hs) as (q' & Hal' & Hp').
    unfold position in Hp'.
    exists (rest_cipher c (length src)), q'. split; [|split; [assumption|lia]].
    do 3 f_equal. rewrite Hs, Hr.
    replace (64 * q + Z.to_nat 0)%nat with (64 * q)%nat by lia.
    rewrite skipn_keystream by lia. reflexivity.
  - (* inside block [q] *)
    destruct (0 <? off c) eqn:E; [clear E | lia].
    set (o := Z.to_nat (off c)) in *.
    assert (Hks : skipn (64 * q + o) (keystream K st0 r)
                  = skipn o (block c) ++ keystream (K - S q) (adv (S q) st0) r).
    { replace (64 * q + o)%nat with (o + 64 * q)%nat by lia.
      rewrite <- skipn_skipn, skipn_keystream by lia.
      replace (K - q)%nat with (S (K - S q)) by lia. cbn [keystream].
      rewrite skipn_app, core_block_length, Hb, <- adv_S.
      replace (o - 64)%nat with 0%nat by lia. reflexivity. }
    assert (Hlo : length (skipn o (block c)) = (64 - o)%nat).
    { rewrite length_skipn, Hb, core_block_length. reflexivity. }
    unfold from at 1. fold o.
    rewrite XOR_Some by (rewrite Hlo; lia). rewrite Hlo.
    destruct (Z.of_nat (Nat.min (length src) (64 - o)) =? len src) eqn:En.
    + (* the leftover bytes are enough *)
      apply Z.eqb_eq in En. unfold len in En.
      exists {| state := state c; block := block c;
                off := off c + Z.of_nat (Nat.min (length src) (64 - o));
                rounds := rounds c |}, q.
      split; [|split].
      * do 3 f_equal.
        -- rewrite Hks. symmetry. apply xor_bytes_short. lia.
        -- f_equal. lia.
      * unfold aligned. cbn [state block off rounds]. repeat split; try lia.
        right. repeat split; try assumption. lia.
      * cbn [off]. lia.
    + (* the leftover bytes, then whole blocks, then a new partial block *)
      apply Z.eqb_neq in En. unfold len in En.
      assert (Hn : Nat.min (length src) (64 - o) = (64 - o)%nat) by lia.
      rewrite Hn in *. unfold from, upto. rewrite !Nat2Z.id.
      assert (Hx : length (xor_bytes src (skipn o (block c))) = (64 - o)%nat).
      { rewrite xor_bytes_length, Hlo. lia. }
      rewrite skipn_app, Hx, Nat.sub_diag, (skipn_all2 (xor_bytes _ _)) by lia.
      cbn [app skipn].
      set (c1 := {| state := state c; block := block c; off := 0; rounds := rounds c |}).
      rewrite (xor_rest_spec c1 _ _ (K - S q))
        by (rewrite !length_skipn; lia).
      destruct (aligned_rest st0 r c1 (S q) (length (skipn (64 - o) src)) Hr eq_refl Hs)
        as (q' & Hal' & Hp').
      unfold position in Hp'.
      exists (rest_cipher c1 (length (skipn (64 - o) src))), q'.
      split; [|split; [assumption|]].
      * do 2 f_equal.
        rewrite firstn_app, Hx, Nat.sub_diag, firstn_all2 by lia. cbn [firstn].
        rewrite app_nil_r, skipn_skipn, length_skipn.
        replace (length src - (64 - o) + (64 - o))%nat with (length src) by lia.
        rewrite app_assoc. f_equal.
        rewrite Hks, xor_bytes_split_r by lia. rewrite Hlo.
        unfold c1. cbn [state rounds]. now rewrite Hs, Hr.
      * rewrite Hp', length_skipn. lia.
Qed.

(** *** Feeding chunks *)

Lemma feed_spec (st0 : list byte) (r : Z) (K : nat) : forall calls c q,
  aligned st0 r c q ->
  Forall fits calls ->
  (position c q + length (concat (map snd calls)) <= 64 * K)%nat ->
  feed c calls
  = Ok (xor_bytes (concat (map snd calls)) (skipn (position c q) (keystream K st0 r))).
Proof.
  induction calls as [|[dst src] calls IH]; intros c q Hal Hf HK.
  - reflexivity.
  - cbn [map snd concat] in *. rewrite length_app in HK.
    inversion Hf as [|? ? Hfit Hf']; subst. unfold fits, len in Hfit. cbn [fst snd] in Hfit.
    destruct (call_spec st0 r c q dst src K Hal) as (c' & q' & Hcall & Hal' & Hp'); try lia.
    cbn [feed]. rewrite Hcall, (IH c' q' Hal' Hf') by lia.
    f_equal. rewrite Hp'.
    assert (Hl : (length src <= length (skipn (position c q) (keystream K st0 r)))%nat).
    { rewrite length_skipn, keystream_length. lia. }
    unfold upto, len. rewrite Nat2Z.id, firstn_app.
    rewrite xor_bytes_length, Nat.min_l by lia.
    rewrite Nat.sub_diag, firstn_all2 by (rewrite xor_bytes_length; lia).
    cbn [firstn]. rewrite app_nil_r, xor_bytes_split by lia.
    now rewrite skipn_skipn, Nat.add_comm.
Qed.

Lemma rounds_ok (rounds : Z) :
  0 < rounds -> Z.even rounds = true ->
  (rounds <=? 0) || negb (Z.rem rounds 2 =? 0) = false.
Proof.
  intros Hp He. rewrite Z.rem_mod_nonneg, Zmod_even, He by lia.
  destruct (rounds <=? 0) eqn:E; [lia|reflexivity].
Qed.

(** The one-shot function XORs [src] against the keystream of its initial
    state. *)
Lemma XORKeyStream_spec (dst src nonce key : list byte) (counter rounds : Z) (K : nat) :
  0 < rounds -> Z.even rounds = true ->
  (length src <= length dst)%nat -> (length src <= 64 * K)%nat ->
  XORKeyStream dst src nonce key counter rounds
  = Ok (xor_bytes src
          (keystream K
             (init_state nonce key (Z.lor (Z.shiftl (read64 nonce 0) 32 mod 2 ^ 64) counter))
             rounds)
        ++ skipn (length src) dst).
Proof.
  intros Hp He Hd HK. unfold XORKeyStream.
  destruct (len dst <? len src) eqn:E; [unfold len in E; lia|]. clear E.
  rewrite rounds_ok by assumption.
  set (st := init_state _ _ _).
  pose proof (xor_rest_spec
                {| state := st; block := make 64; off := 0; rounds := rounds |}
                dst src K Hd HK) as H.
  unfold xor_rest in H. cbn [state block off Chacha.rounds] in H.
  destruct (if 64 <=? len src then XORBlocks dst src st rounds else (dst, st)) as [d s'].
  destruct (0 <? len src - Z.land (len src) (Z.lnot (64 - 1))).
  - unfold Core in *.
    destruct (XOR (from d (Z.land (len src) (Z.lnot (64 - 1))))
                  (from src (Z.land (len src) (Z.lnot (64 - 1))))
                  (core_block s' rounds)) as [[tail k]|];
      inversion H; reflexivity.
  - inversion H; reflexivity.
Qed.

Lemma NewCipher_aligned (nonce key : list byte) (r : Z) (c : Cipher) :
  NewCipher nonce key r = Ok c ->
  aligned (init_state nonce key (Z.shiftl (read64 nonce 0) 32 mod 2 ^ 64)) r c 0.
Proof.
  unfold NewCipher. destruct ((r <=? 0) || negb (Z.rem r 2 =? 0)); [discriminate|].
  intros H. injection H as <-. unfold aligned. cbn [state block off rounds adv].
  repeat split; try lia. left. split; reflexivity.
Qed.

Lemma reachable_aligned (c : Cipher) :
  reachable c -> exists st0 r q, aligned st0 r c q.
Proof.
  induction 1 as [nonce key r c H | c dst src _ (st0 & r & q & IH)].
  - eexists. exists r, 0%nat. exact (NewCipher_aligned _ _ _ _ H).
  - destruct (len dst <? len src) eqn:E.
    + exists st0, r, q. unfold Cipher_XORKeyStream. now rewrite E.
    + destruct (call_spec st0 r c q dst src (position c q + length src) IH)
        as (c' & q' & Hcall & Hal & _); try (unfold len in E; lia).
      exists st0, r, q'. now rewrite Hcall.
Qed.

(** *** The resumable cipher against the one-shot function *)

(** C3. For every key and nonce, every positive even round count and every
    sequence of calls whose destinations are large enough, a cipher made
    by [NewCipher] and fed the sources one call after the other yields,
    put end to end, the bytes the one-shot [XORKeyStream] with counter 0
    yields on the concatenation of the sources; two sequences of calls with
    the same concatenation therefore yield the same bytes, wherever the
    split points are. *)
Theorem chunk_independence (nonce key : list byte) (rounds : Z)
    (calls : list (list byte * list byte)) (dst : list byte) :
  0 < rounds -> Z.even rounds = true ->
  Forall fits calls ->
  len (concat (map snd calls)) <= len dst ->
  exists c out,
    NewCipher nonce key rounds = Ok c
    /\ XORKeyStream dst (concat (map snd calls)) nonce key 0 rounds = Ok out
    /\ feed c calls = Ok (upto out (len (concat (map snd calls))))
    /\ forall calls',
         Forall fits calls' ->
         concat (map snd calls') = concat (map snd calls) ->
         feed c calls' = feed c calls.
Proof.
  intros Hp He Hf Hd.
  set (st0 := init_state nonce key (Z.shiftl (read64 nonce 0) 32 mod 2 ^ 64)).
  set (src := concat (map snd calls)) in *.
  assert (Hnew : NewCipher nonce key rounds
                 = Ok {| state := st0; block := make 64; off := 0; rounds := rounds |}).
  { unfold NewCipher. now rewrite rounds_ok. }
  pose proof (NewCipher_aligned _ _ _ _ Hnew) as Hal. fold st0 in Hal.
  assert (Hfeed : forall l, Forall fits l -> concat (map snd l) = src ->
            feed {| state := st0; block := make 64; off := 0; rounds := rounds |} l
            = Ok (xor_bytes src (keystream (length src) st0 rounds))).
  { intros l Hl Hsrc.
    rewrite (feed_spec st0 rounds (length src) l _ 0%nat Hal Hl)
      by (rewrite Hsrc; unfold position; cbn [off]; lia).
    now rewrite Hsrc. }
  eexists. eexists. split; [exact Hnew|]. split; [|split].
  - rewrite (XORKeyStream_spec dst src nonce key 0 rounds (length src)); try assumption;
      [reflexivity | unfold len in Hd; lia | lia].
  - rewrite Z.lor_0_r. fold st0. rewrite (Hfeed calls Hf eq_refl). f_equal.
    unfold upto, len. rewrite Nat2Z.id, firstn_app.
    rewrite xor_bytes_length, keystream_length.
    replace (Nat.min (length src) (64 * length src)) with (length src) by lia.
    rewrite Nat.sub_diag, firstn_all2 by (rewrite xor_bytes_length, keystream_length; lia).
    cbn [firstn]. now rewrite app_nil_r.
  - intros calls' Hf' Hsrc. now rewrite (Hfeed calls' Hf' Hsrc), (Hfeed calls Hf eq_refl).
Qed.

Lemma chunk_independence_witness :
  exists c out,
    NewCipher (make 12) (make 32) 20 = Ok c
    /\ XORKeyStream (make 85) (concat (map snd three_calls)) (make 12) (make 32) 0 20 = Ok out
    /\ feed c three_calls = Ok (upto out (len (concat (map snd three_calls))))
    /\ forall calls',
         Forall fits calls' ->
         concat (map snd calls') = concat (map snd three_calls) ->
         feed c calls' = feed c three_calls.
Proof.
  apply (chunk_independence (make 12) (make 32) 20 three_calls (make 85)).
  - lia.
  - reflexivity.
  - repeat constructor; unfold fits; vm_compute; discriminate.
  - vm_compute; discriminate.
Defined.

(** *** The offset of the resumable cipher *)





End ChachaFacts.

(** ** Facts about the EAX mode *)

Module EAXFacts.
Import Go EAX.

(** *** Slices *)

Lemma len_app {A : Type} (a b : list A) : len (a ++ b) = len a + len b.
Proof. unfold len. rewrite length_app. lia. Qed.

Lemma len_cons {A : Type} (x : A) (s : list A) : len (x :: s) = 1 + len s.
Proof. unfold len. cbn [length]. lia. Qed.

Lemma len_upto {A : Type} (s : list A) (j : Z) : 0 <= j <= len s -> len (upto s j) = j.
Proof. unfold len, upto. intros H. rewrite length_firstn. lia. Qed.

Lemma len_from {A : Type} (s : list A) (i : Z) : 0 <= i <= len s -> len (from s i) = len s - i.
Proof. unfold len, from. intros H. rewrite length_skipn. lia. Qed.

Lemma len_sub {A : Type} (s : list A) (i j : Z) : 0 <= i <= j -> j <= len s -> len (sub s i j) = j - i.
Proof. intros H1 H2. unfold sub. rewrite len_upto; [lia|]. rewrite len_from; lia. Qed.

Lemma len_make (n : Z) : 0 <= n -> len (make n) = n.
Proof. unfold len, make. intros H. rewrite repeat_length. lia. Qed.

Lemma len_xor_bytes (a b : list byte) : len (xor_bytes a b) = Z.min (len a) (len b).
Proof. unfold len. rewrite ChachaFacts.xor_bytes_length. lia. Qed.

Lemma len_store (s : list byte) (i : Z) (v : byte) : len (store s i v) = len s.
Proof.
  unfold store. destruct ((0 <=? i) && (i <? len s)) eqn:E; [|reflexivity].
  apply andb_prop in E. destruct E as [E1 E2].
  rewrite len_app, len_cons, len_upto, len_from; lia.
Qed.

Lemma upto_all {A : Type} (s : list A) (j : Z) : len s <= j -> upto s j = s.
Proof. unfold len, upto. intros H. apply firstn_all2. lia. Qed.

Lemma from_all {A : Type} (s : list A) (i : Z) : len s <= i -> from s i = [].
Proof. unfold len, from. intros H. apply skipn_all2. lia. Qed.

Lemma from_app_r {A : Type} (p q : list A) (m : Z) :
  len p <= m -> from (p ++ q) m = from q (m - len p).
Proof.
  unfold len, from. intros H. rewrite skipn_app, skipn_all2 by lia.
  cbn [app]. f_equal. lia.
Qed.

Lemma from_from {A : Type} (s : list A) (i j : Z) :
  0 <= i -> 0 <= j -> from (from s i) j = from s (i + j).
Proof. unfold from. intros Hi Hj. rewrite skipn_skipn. f_equal. lia. Qed.

Lemma from_upto {A : Type} (s : list A) (i j : Z) :
  0 <= i <= j -> from (upto s j) i = sub s i j.
Proof.
  unfold from, upto, sub, from, upto. intros H. rewrite skipn_firstn_comm. f_equal. lia.
Qed.

Lemma upto_app_l {A : Type} (p q : list A) : upto (p ++ q) (len p) = p.
Proof.
  unfold upto, len. rewrite Nat2Z.id, firstn_app, Nat.sub_diag, firstn_all.
  cbn [firstn]. apply app_nil_r.
Qed.

Lemma from_app_l {A : Type} (p q : list A) : from (p ++ q) (len p) = q.
Proof.
  unfold from, len. rewrite Nat2Z.id, skipn_app, Nat.sub_diag, skipn_all. reflexivity.
Qed.

Lemma copy_full (dst src : list byte) : len dst = len src -> copy dst src = src.
Proof.
  intros H. unfold copy. rewrite H, Z.min_id, upto_all, from_all by lia.
  apply app_nil_r.
Qed.

Lemma len_copy (dst src : list byte) : len (copy dst src) = len dst.
Proof.
  unfold copy. pose proof (ChachaFacts.len_nonneg dst). pose proof (ChachaFacts.len_nonneg src).
  rewrite len_app, len_upto, len_from by lia. lia.
Qed.

Lemma XOR_ok (dst src w : list byte) :
  Z.min (len src) (len w) <= len dst ->
  XOR dst src w = Some (xor_bytes src w ++ from dst (Z.min (len src) (len w)),
                        Z.min (len src) (len w)).
Proof.
  intros H. unfold XOR. destruct (len dst <? Z.min (len src) (len w)) eqn:E; [lia|reflexivity].
Qed.

Lemma XOR_len (dst src w d : list byte) (k : Z) :
  XOR dst src w = Some (d, k) -> len d = len dst.
Proof.
  unfold XOR. destruct (len dst <? Z.min (len src) (len w)) eqn:E; [discriminate|].
  intros H. injection H as <- <-.
  pose proof (ChachaFacts.len_nonneg src). pose proof (ChachaFacts.len_nonneg w).
  rewrite len_app, len_xor_bytes, len_from by lia. lia.
Qed.

Lemma bytes_eqb_eq (x y : list byte) : bytes_eqb x y = true <-> x = y.
Proof.
  revert y. induction x as [|a x IH]; intros [|b y]; simpl; split; intros H;
    try reflexivity; try discriminate.
  - apply andb_prop in H. destruct H as [H1 H2]. apply Z.eqb_eq in H1.
    apply IH in H2. now subst.
  - injection H as -> ->. rewrite Z.eqb_refl. now apply IH.
Qed.

(** *** The chunk count of [ctrCrypt] for a block size that is a power of
    two *)

Lemma mask_multiple (k l : Z) :
  0 <= k -> 0 <= l ->
  exists b, 0 <= b /\ Z.land l (Z.lnot (l - 2 ^ k)) = 2 ^ k * b /\ 2 ^ k * b <= l.
Proof.
  intros Hk Hl. set (n := Z.land l (Z.lnot (l - 2 ^ k))).
  assert (Hp : 0 < 2 ^ k) by (apply Z.pow_pos_nonneg; lia).
  assert (Hn : 0 <= n) by (apply Z.land_nonneg; now left).
  assert (Hm : n mod 2 ^ k = 0).
  { rewrite <- Z.land_ones by assumption. apply Z.bits_inj'. intros i Hi.
    unfold n. rewrite !Z.land_spec, Z.lnot_spec, Z.testbit_ones_nonneg, Z.bits_0 by lia.
    destruct (i <? k) eqn:E; [|now rewrite andb_false_r].
    apply Z.ltb_lt in E.
    rewrite <- (Z.mod_pow2_bits_low (l - 2 ^ k) k i) by assumption.
    replace (l - 2 ^ k) with (l + (-1) * 2 ^ k) by lia.
    rewrite Z.mod_add, Z.mod_pow2_bits_low by lia.
    destruct (Z.testbit l i); reflexivity. }
  assert (Hle : n <= l).
  { pose proof (Z.add_lor_land (Z.ldiff l (Z.lnot (l - 2 ^ k))) n) as Hs.
    unfold n in Hs at 1. rewrite Z.lor_ldiff_and in Hs.
    assert (Hz : Z.land (Z.ldiff l (Z.lnot (l - 2 ^ k))) n = 0).
    { apply Z.bits_inj'. intros i Hi. unfold n.
      rewrite !Z.land_spec, Z.ldiff_spec, Z.bits_0.
      destruct (Z.testbit l i), (Z.testbit (Z.lnot (l - 2 ^ k)) i); reflexivity. }
    assert (0 <= Z.ldiff l (Z.lnot (l - 2 ^ k))) by (apply Z.ldiff_nonneg; now left).
    lia. }
  exists (n / 2 ^ k). split; [apply Z.div_pos; lia|].
  pose proof (Z.div_mod n (2 ^ k) ltac:(lia)). lia.
Qed.

Section WithCipher.
Context {B : Block} {M : CMac B}.

(** *** The counter and the counter-mode loop *)

Lemma increment_len (k : nat) : forall ctr, len (increment k ctr) = len ctr.
Proof.
  induction k as [|k IH]; intros ctr; cbn [increment]; [reflexivity|].
  destruct ((nth k ctr 0 + 1) mod 256 =? 0).
  - now rewrite IH, len_store.
  - apply len_store.
Qed.

Lemma firstn_snoc (k : nat) : forall l : list byte,
  (k < length l)%nat -> firstn (S k) l = firstn k l ++ [nth k l 0].
Proof.
  induction k as [|k IH]; intros [|x l] H; cbn [length] in H; try lia; [reflexivity|].
  cbn [firstn nth app]. f_equal. apply IH. lia.
Qed.

Lemma skipn_cons (k : nat) : forall l : list byte,
  (k < length l)%nat -> skipn k l = nth k l 0 :: skipn (S k) l.
Proof.
  induction k as [|k IH]; intros [|x l] H; cbn [length] in H; try lia; [reflexivity|].
  cbn [skipn nth]. apply IH. lia.
Qed.

Lemma store_nat (l : list byte) (k : nat) (v : byte) :
  (k < length l)%nat -> store l (Z.of_nat k) v = firstn k l ++ v :: skipn (S k) l.
Proof.
  intros H. unfold store, len, upto, from.
  destruct ((0 <=? Z.of_nat k) && (Z.of_nat k <? Z.of_nat (length l))) eqn:E;
    [|apply andb_false_iff in E; lia].
  rewrite Nat2Z.id. do 3 f_equal. lia.
Qed.

Lemma Forall_split (k : nat) (l : list byte) :
  Forall is_byte l -> Forall is_byte (firstn k l) /\ Forall is_byte (skipn k l).
Proof. intros H. rewrite <- (firstn_skipn k l) in H. now apply Forall_app in H. Qed.

Lemma be_value_snoc (l : list byte) (x : byte) : be_value (l ++ [x]) = be_value l * 256 + x.
Proof. unfold be_value. now rewrite fold_left_app. Qed.

Lemma be_value_bound (l : list byte) :
  Forall is_byte l -> 0 <= be_value l < 256 ^ len l.
Proof.
  induction l as [|x l IH] using rev_ind; intros H.
  - cbn. lia.
  - apply Forall_app in H. destruct H as [Hl Hx]. inversion Hx as [|? ? Hb _]; subst.
    specialize (IH Hl). unfold is_byte in Hb.
    rewrite be_value_snoc, len_app. change (len [x]) with 1.
    rewrite Z.pow_add_r by (pose proof (ChachaFacts.len_nonneg l); lia).
    change (256 ^ 1) with 256. nia.
Qed.

(** The inner loop of [ctrCrypt] adds one to the register read as a
    big-endian integer, wrapping around at its width. *)
Lemma increment_spec (k : nat) : forall l,
  Forall is_byte l -> (k <= length l)%nat ->
  exists p,
    increment k l = p ++ skipn k l
    /\ length p = k /\ Forall is_byte p
    /\ be_value p = (be_value (firstn k l) + 1) mod 256 ^ Z.of_nat k.
Proof.
  induction k as [|k IH]; intros l Hl Hk.
  - exists []. cbn. repeat split; auto.
  - cbn [increment].
    assert (Hx : is_byte (nth k l 0)).
    { apply (proj1 (Forall_nth _ _) Hl). lia. }
    assert (Hf : Forall is_byte (firstn k l)) by (now apply Forall_split).
    pose proof (be_value_bound (firstn k l) Hf) as Hb.
    unfold len in Hb. rewrite length_firstn, Nat.min_l in Hb by lia.
    unfold is_byte in Hx.
    rewrite store_nat, firstn_snoc, be_value_snoc by lia.
    rewrite Nat2Z.inj_succ, Z.pow_succ_r by lia.
    destruct ((nth k l 0 + 1) mod 256 =? 0) eqn:E.
    + apply Z.eqb_eq in E. rewrite E.
      assert (Hx255 : nth k l 0 = 255).
      { destruct (Z.eq_dec (nth k l 0) 255) as [|Hn]; [assumption|].
        rewrite Z.mod_small in E by lia. lia. }
      match goal with
      | |- context [increment k ?l1] => destruct (IH l1) as (p & Hp & Hlp & Hfp & Hv)
      end.
      * apply Forall_app. split; [assumption|]. constructor; [unfold is_byte; lia|].
        now apply Forall_split.
      * rewrite length_app, length_firstn. cbn [length]. lia.
      * exists (p ++ [0]). rewrite Hp.
        rewrite skipn_app, length_firstn, Nat.min_l, Nat.sub_diag, skipn_all2 by
          (rewrite ?length_firstn; lia).
        cbn [app skipn]. rewrite <- app_assoc. cbn [app].
        split; [reflexivity|]. split; [rewrite length_app; cbn [length]; lia|].
        split; [apply Forall_app; split; [assumption|constructor; [unfold is_byte; lia|constructor]]|].
        rewrite be_value_snoc, Hv.
        rewrite firstn_app, length_firstn, Nat.min_l, Nat.sub_diag, firstn_all2 by
          (rewrite ?length_firstn; lia).
        cbn [firstn]. rewrite app_nil_r, Hx255.
        replace (be_value (firstn k l) * 256 + 255 + 1)
          with (256 * (be_value (firstn k l) + 1)) by lia.
        rewrite Z.mul_mod_distr_l by lia. lia.
    + apply Z.eqb_neq in E.
      assert (Hsmall : nth k l 0 + 1 < 256).
      { destruct (Z.eq_dec (nth k l 0) 255) as [H255|Hn]; [|lia].
        rewrite H255 in E. now cbn in E. }
      rewrite Z.mod_small by lia.
      exists (firstn k l ++ [nth k l 0 + 1]). rewrite <- app_assoc. cbn [app].
      split; [reflexivity|]. split; [rewrite length_app, length_firstn; cbn [length]; lia|].
      split; [apply Forall_app; split; [assumption|constructor; [unfold is_byte; lia|constructor]]|].
      rewrite be_value_snoc. rewrite Z.mod_small by nia. lia.
Qed.

Lemma increment_big_endian (l : list byte) :
  Forall is_byte l ->
  be_value (increment (length l) l) = (be_value l + 1) mod 256 ^ len l.
Proof.
  intros Hl. destruct (increment_spec (length l) l Hl (le_n _)) as (p & Hp & _ & _ & Hv).
  rewrite Hp, skipn_all, app_nil_r, Hv, firstn_all. reflexivity.
Qed.

(** The loop touches neither the MAC nor the tag size, and keeps the length
    of the counter register. *)
Lemma ctr_loop_frame (fuel : nat) : forall i n c dst src,
  let c' := fst (fst (ctr_loop fuel i n c dst src)) in
  len (ctr c') = len (ctr c) /\ mac c' = mac c /\ size c' = size c.
Proof.
  induction fuel as [|fuel IH]; intros i n c dst src; cbn [ctr_loop]; [auto|].
  destruct (i <? n); [|auto].
  destruct ((i + BlockSize <=? len dst) && (i + BlockSize <=? len src)); [|cbn; auto].
  cbn [block with_block].
  destruct (XOR (sub dst i (i + BlockSize)) (sub src i (i + BlockSize)) (Encrypt (ctr c)))
    as [[d k]|]; [|cbn; auto].
  specialize (IH (i + BlockSize) n
                (with_ctr (with_block c (Encrypt (ctr c)))
                   (increment (length (ctr (with_block c (Encrypt (ctr c)))))
                      (ctr (with_block c (Encrypt (ctr c))))))
                (upto dst i ++ d ++ from dst (i + BlockSize)) src).
  cbn [ctr mac size with_ctr with_block] in IH. rewrite increment_len in IH. exact IH.
Qed.

(** What the loop writes and returns depends on the counter register
    only. *)
Lemma ctr_loop_indep (fuel : nat) : forall i n c1 c2 dst src,
  ctr c1 = ctr c2 ->
  let r1 := ctr_loop fuel i n c1 dst src in
  let r2 := ctr_loop fuel i n c2 dst src in
  snd (fst r1) = snd (fst r2) /\ snd r1 = snd r2 /\ ctr (fst (fst r1)) = ctr (fst (fst r2)).
Proof.
  induction fuel as [|fuel IH]; intros i n c1 c2 dst src Hc; cbn [ctr_loop]; [cbn; auto|].
  destruct (i <? n); [|cbn; auto].
  destruct ((i + BlockSize <=? len dst) && (i + BlockSize <=? len src)); [|cbn; auto].
  cbn [block ctr with_block]. rewrite <- Hc.
  destruct (XOR (sub dst i (i + BlockSize)) (sub src i (i + BlockSize)) (Encrypt (ctr c1)))
    as [[d k]|]; [|cbn; auto].
  apply IH. reflexivity.
Qed.

(** The loop keeps the length of [dst], also when it panics. *)
Lemma ctr_loop_len (fuel : nat) : forall i n c dst src,
  0 <= i -> len (snd (fst (ctr_loop fuel i n c dst src))) = len dst.
Proof.
  pose proof BlockSize_pos as Hbs.
  induction fuel as [|fuel IH]; intros i n c dst src Hi; cbn [ctr_loop]; [reflexivity|].
  destruct (i <? n); [|reflexivity].
  destruct ((i + BlockSize <=? len dst) && (i + BlockSize <=? len src)) eqn:E;
    [|reflexivity].
  apply andb_prop in E. destruct E as [E1 E2].
  cbn [block with_block].
  destruct (XOR (sub dst i (i + BlockSize)) (sub src i (i + BlockSize)) (Encrypt (ctr c)))
    as [[d k]|] eqn:EX; [|reflexivity].
  apply XOR_len in EX. rewrite len_sub in EX by lia.
  rewrite IH by lia.
  rewrite !len_app, len_upto, len_from by lia. lia.
Qed.

(** [ctrCrypt] gives the loop more fuel than it uses: one more unit changes
    nothing. *)
Lemma ctr_loop_fuel (fuel : nat) : forall i n c dst src,
  0 <= i -> (Z.to_nat (n - i) < fuel)%nat ->
  ctr_loop (S fuel) i n c dst src = ctr_loop fuel i n c dst src.
Proof.
  pose proof BlockSize_pos as Hbs.
  induction fuel as [|fuel IH]; intros i n c dst src Hi Hf; [lia|].
  cbn [ctr_loop]. destruct (i <? n) eqn:E; [|reflexivity].
  destruct ((i + BlockSize <=? len dst) && (i + BlockSize <=? len src)); [|reflexivity].
  cbn [block with_block].
  destruct (XOR (sub dst i (i + BlockSize)) (sub src i (i + BlockSize)) (Encrypt (ctr c)))
    as [[d k]|]; [|reflexivity].
  apply IH; lia.
Qed.

(** The only panic of the loop is the one of the runtime. *)
Lemma ctr_loop_panic (fuel : nat) : forall i n c dst src,
  snd (ctr_loop fuel i n c dst src) = Ok tt
  \/ snd (ctr_loop fuel i n c dst src) = Panic OutOfRange.
Proof.
  induction fuel as [|fuel IH]; intros i n c dst src; cbn [ctr_loop]; [now left|].
  destruct (i <? n); [|now left].
  destruct ((i + BlockSize <=? len dst) && (i + BlockSize <=? len src)); [|now right].
  cbn [block with_block].
  destruct (XOR (sub dst i (i + BlockSize)) (sub src i (i + BlockSize)) (Encrypt (ctr c)))
    as [[d k]|]; [apply IH|now right].
Qed.

(** With enough room in [dst] and a chunk count that is a multiple of the
    block size, the loop returns. *)
Lemma ctr_loop_ok (fuel : nat) : forall a b c dst src,
  0 <= a <= b ->
  BlockSize * b <= len src -> len src <= len dst ->
  len (ctr c) = BlockSize ->
  (Z.to_nat (b - a) < fuel)%nat ->
  exists c' dst',
    ctr_loop fuel (BlockSize * a) (BlockSize * b) c dst src = (c', dst', Ok tt)
    /\ len dst' = len dst /\ len (ctr c') = BlockSize
    /\ from dst' (BlockSize * b) = from dst (BlockSize * b).
Proof.
  pose proof BlockSize_pos as Hbs.
  induction fuel as [|fuel IH]; intros a b c dst src Hab Hs Hd Hc Hf; [lia|].
  cbn [ctr_loop].
  destruct (BlockSize * a <? BlockSize * b) eqn:E; [|eauto 6].
  apply Z.ltb_lt in E. assert (Ha : a < b) by nia.
  assert (Hj : BlockSize * a + BlockSize <= BlockSize * b) by nia.
  destruct ((BlockSize * a + BlockSize <=? len dst) && (BlockSize * a + BlockSize <=? len src))
    eqn:E'; [|apply andb_false_iff in E'; lia].
  cbn [block ctr with_block].
  assert (He : len (Encrypt (ctr c)) = BlockSize) by (now apply Encrypt_len).
  rewrite XOR_ok by (rewrite !len_sub, He; nia).
  rewrite !len_sub, He by nia.
  replace (Z.min (BlockSize * a + BlockSize - BlockSize * a) BlockSize) with BlockSize by lia.
  replace (BlockSize * a + BlockSize) with (BlockSize * (a + 1)) in * by lia.
  assert (Hi : 0 <= BlockSize * a) by nia.
  rewrite app_assoc.
  set (pre := upto dst (BlockSize * a) ++ _).
  assert (Hpre : len pre = BlockSize * (a + 1)).
  { unfold pre. rewrite len_app, len_upto, len_app, len_xor_bytes by lia.
    rewrite (len_sub src), He by lia.
    rewrite len_from; rewrite (len_sub dst) by lia; lia. }
  set (dst1 := pre ++ _).
  assert (Hl1 : len dst1 = len dst).
  { unfold dst1. rewrite len_app, Hpre, len_from by lia. lia. }
  assert (Hu1 : from dst1 (BlockSize * b) = from dst (BlockSize * b)).
  { unfold dst1. rewrite from_app_r, Hpre, from_from by lia. f_equal. lia. }
  match goal with
  | |- exists c' dst', ctr_loop _ _ _ ?c1 _ _ = _ /\ _ =>
      destruct (IH (a + 1) b c1 dst1 src) as (c' & dst' & Heq & Hl & Hc' & Hu); try lia
  end.
  - cbn [ctr with_ctr with_block]. now rewrite increment_len.
  - exists c', dst'. rewrite Heq. repeat split; [lia|assumption|congruence].
Qed.

Lemma ctrCrypt_frame (c : eaxCipher) (dst src : list byte) :
  let c' := fst (fst (ctrCrypt c dst src)) in
  len (ctr c') = len (ctr c) /\ mac c' = mac c /\ size c' = size c.
Proof.
  unfold ctrCrypt.
  set (n := Z.land (len src) (Z.lnot (len src - BlockSize))).
  pose proof (ctr_loop_frame (S (Z.to_nat n)) 0 n c dst src) as H.
  destruct (ctr_loop (S (Z.to_nat n)) 0 n c dst src) as [[c1 d1] r1].
  cbn [fst snd] in H. destruct r1 as [[]|p]; [|exact H].
  destruct (n <? len src); [|exact H].
  destruct (n <=? len d1); [|exact H].
  cbn [block with_block].
  destruct (XOR (from d1 n) (from src n) (Encrypt (ctr c1))) as [[d k]|]; exact H.
Qed.

Lemma ctrCrypt_indep (c1 c2 : eaxCipher) (dst src : list byte) :
  ctr c1 = ctr c2 ->
  snd (fst (ctrCrypt c1 dst src)) = snd (fst (ctrCrypt c2 dst src))
  /\ snd (ctrCrypt c1 dst src) = snd (ctrCrypt c2 dst src).
Proof.
  intros Hc. unfold ctrCrypt.
  set (n := Z.land (len src) (Z.lnot (len src - BlockSize))).
  pose proof (ctr_loop_indep (S (Z.to_nat n)) 0 n c1 c2 dst src Hc) as H.
  destruct (ctr_loop (S (Z.to_nat n)) 0 n c1 dst src) as [[a1 d1] r1].
  destruct (ctr_loop (S (Z.to_nat n)) 0 n c2 dst src) as [[a2 d2] r2].
  cbn [fst snd] in H. destruct H as (Hd & Hr & Ha). subst d2 r2.
  destruct r1 as [[]|p]; [|cbn; auto].
  destruct (n <? len src); [|cbn; auto].
  destruct (n <=? len d1); [|cbn; auto].
  cbn [block with_block]. rewrite <- Ha.
  destruct (XOR (from d1 n) (from src n) (Encrypt (ctr a1))) as [[d k]|]; cbn; auto.
Qed.

Lemma ctrCrypt_len (c : eaxCipher) (dst src : list byte) :
  len (snd (fst (ctrCrypt c dst src))) = len dst.
Proof.
  unfold ctrCrypt.
  set (n := Z.land (len src) (Z.lnot (len src - BlockSize))).
  assert (Hn : 0 <= n).
  { apply Z.land_nonneg. left. apply ChachaFacts.len_nonneg. }
  pose proof (ctr_loop_len (S (Z.to_nat n)) 0 n c dst src ltac:(lia)) as H.
  destruct (ctr_loop (S (Z.to_nat n)) 0 n c dst src) as [[c1 d1] r1].
  cbn [fst snd] in H. destruct r1 as [[]|p]; [|exact H].
  destruct (n <? len src); [|exact H].
  destruct (n <=? len d1) eqn:E; [|exact H].
  cbn [block with_block].
  destruct (XOR (from d1 n) (from src n) (Encrypt (ctr c1))) as [[d k]|] eqn:EX; [|exact H].
  apply XOR_len in EX. rewrite len_from in EX by lia.
  cbn [fst snd]. rewrite len_app, len_upto by lia. lia.
Qed.

Lemma ctrCrypt_panic (c : eaxCipher) (dst src : list byte) :
  snd (ctrCrypt c dst src) = Ok tt \/ snd (ctrCrypt c dst src) = Panic OutOfRange.
Proof.
  unfold ctrCrypt.
  set (n := Z.land (len src) (Z.lnot (len src - BlockSize))).
  pose proof (ctr_loop_panic (S (Z.to_nat n)) 0 n c dst src) as H.
  destruct (ctr_loop (S (Z.to_nat n)) 0 n c dst src) as [[c1 d1] r1].
  cbn [snd] in H. destruct r1 as [[]|p]; [|exact H].
  destruct (n <? len src); [|now left].
  destruct (n <=? len d1); [|now right].
  cbn [block with_block].
  destruct (XOR (from d1 n) (from src n) (Encrypt (ctr c1))) as [[d k]|];
    [now left|now right].
Qed.

(** For a block size that is a power of two and a destination as long as
    the source, [ctrCrypt] returns; it leaves [dst] as it was beyond the
    chunks of the loop and one more block. *)
Lemma ctrCrypt_ok (c : eaxCipher) (dst src : list byte) :
  power_of_two BlockSize ->
  len src <= len dst -> len (ctr c) = BlockSize ->
  let n := Z.land (len src) (Z.lnot (len src - BlockSize)) in
  exists c' dst',
    ctrCrypt c dst src = (c', dst', Ok tt) /\ len dst' = len dst
    /\ from dst' (n + Z.min (len src - n) BlockSize)
       = from dst (n + Z.min (len src - n) BlockSize).
Proof.
  intros (k & Hk & Hbs) Hd Hc. cbv zeta. unfold ctrCrypt.
  pose proof (ChachaFacts.len_nonneg src) as Hs.
  destruct (mask_multiple k (len src) Hk Hs) as (b & Hb & Hn & Hle).
  rewrite Hbs, Hn, <- Hbs.
  pose proof BlockSize_pos as Hpos.
  destruct (ctr_loop_ok (S (Z.to_nat (BlockSize * b))) 0 b c dst src)
    as (c1 & d1 & Heq & Hl & Hc1 & Hu1); try lia; try nia.
  rewrite Z.mul_0_r in Heq. rewrite Heq.
  rewrite <- Hbs in Hle. assert (Hnn : 0 <= BlockSize * b) by nia.
  destruct (BlockSize * b <? len src) eqn:E.
  2:{ exists c1, d1. repeat split; [assumption|].
      replace (BlockSize * b + Z.min (len src - BlockSize * b) BlockSize)
        with (BlockSize * b) by lia.
      assumption. }
  destruct (BlockSize * b <=? len d1) eqn:E'; [|lia].
  cbn [block with_block].
  assert (He : len (Encrypt (ctr c1)) = BlockSize) by (now apply Encrypt_len).
  assert (Hfs : len (from src (BlockSize * b)) = len src - BlockSize * b)
    by (apply len_from; lia).
  assert (Hfd : len (from d1 (BlockSize * b)) = len d1 - BlockSize * b)
    by (apply len_from; lia).
  rewrite XOR_ok by lia.
  eexists; eexists; split; [reflexivity|]. rewrite Hfs, He. split.
  - rewrite !len_app, len_xor_bytes.
    rewrite len_upto by lia.
    rewrite (len_from (from d1 (BlockSize * b))) by lia.
    lia.
  - set (cnt := Z.min (len src - BlockSize * b) BlockSize).
    assert (Hpre : len (upto d1 (BlockSize * b)
                        ++ xor_bytes (from src (BlockSize * b)) (Encrypt (ctr c1)))
                   = BlockSize * b + cnt).
    { rewrite len_app, len_upto, len_xor_bytes, Hfs, He by lia. reflexivity. }
    rewrite app_assoc, from_app_r, Hpre by lia.
    rewrite Z.sub_diag, Hu1, !from_from by lia. f_equal. lia.
Qed.

(** *** What the counter-mode core computes *)

Lemma ctr_adv_len (k : nat) : forall ctr, len (ctr_adv k ctr) = len ctr.
Proof.
  induction k as [|k IH]; intros ctr; cbn [ctr_adv]; [reflexivity|].
  now rewrite IH, increment_len.
Qed.

Lemma ctr_stream_len (k : nat) : forall ctr,
  len ctr = BlockSize -> len (ctr_stream k ctr) = BlockSize * Z.of_nat k.
Proof.
  induction k as [|k IH]; intros ctr Hc; cbn [ctr_stream].
  - cbn. lia.
  - rewrite len_app, Encrypt_len, IH by (rewrite ?increment_len; assumption). lia.
Qed.

Lemma ctr_stream_snoc (k : nat) : forall ctr,
  ctr_stream (S k) ctr = ctr_stream k ctr ++ Encrypt (ctr_adv k ctr).
Proof.
  induction k as [|k IH]; intros ctr.
  - cbn [ctr_stream ctr_adv app]. now rewrite app_nil_r.
  - change (ctr_stream (S (S k)) ctr)
      with (Encrypt ctr ++ ctr_stream (S k) (increment (length ctr) ctr)).
    rewrite IH. cbn [ctr_stream ctr_adv]. now rewrite app_assoc.
Qed.

Lemma sub_split {A : Type} (s : list A) (i j n : Z) :
  0 <= i <= j -> j <= n -> sub s i n = sub s i j ++ sub s j n.
Proof.
  intros H1 H2. unfold sub, upto, from.
  replace (Z.to_nat (n - i)) with (Z.to_nat (j - i) + Z.to_nat (n - j))%nat by lia.
  rewrite ChachaFacts.firstn_plus, skipn_skipn. do 3 f_equal. lia.
Qed.

Lemma xor_bytes_len_eq (a1 a2 b1 b2 : list byte) :
  len a1 = len b1 -> xor_bytes (a1 ++ a2) (b1 ++ b2) = xor_bytes a1 b1 ++ xor_bytes a2 b2.
Proof. unfold len. intros H. apply ChachaFacts.xor_bytes_app. lia. Qed.

(** The loop XORs the chunks it visits against the keystream of the counter
    register. *)
Lemma ctr_loop_spec (fuel : nat) : forall a b c dst src,
  0 <= a <= b ->
  BlockSize * b <= len src -> len src <= len dst ->
  len (ctr c) = BlockSize ->
  (Z.to_nat (b - a) < fuel)%nat ->
  exists c',
    ctr_loop fuel (BlockSize * a) (BlockSize * b) c dst src
    = (c',
       upto dst (BlockSize * a)
       ++ xor_bytes (sub src (BlockSize * a) (BlockSize * b))
                    (ctr_stream (Z.to_nat (b - a)) (ctr c))
       ++ from dst (BlockSize * b),
       Ok tt)
    /\ ctr c' = ctr_adv (Z.to_nat (b - a)) (ctr c).
Proof.
  pose proof BlockSize_pos as Hbs.
  induction fuel as [|fuel IH]; intros a b c dst src Hab Hs Hd Hc Hf; [lia|].
  cbn [ctr_loop].
  destruct (BlockSize * a <? BlockSize * b) eqn:E.
  2:{ assert (a = b) by nia. subst b. rewrite Z.sub_diag. cbn [Z.to_nat ctr_stream ctr_adv].
      rewrite ChachaFacts.xor_bytes_nil_r. cbn [app].
      exists c. split; [|reflexivity]. do 2 f_equal.
      unfold upto, from. now rewrite firstn_skipn. }
  apply Z.ltb_lt in E. assert (Ha : a < b) by nia.
  assert (Hj : BlockSize * a + BlockSize <= BlockSize * b) by nia.
  destruct ((BlockSize * a + BlockSize <=? len dst) && (BlockSize * a + BlockSize <=? len src))
    eqn:E'; [|apply andb_false_iff in E'; lia].
  cbn [block ctr with_block with_ctr].
  assert (He : len (Encrypt (ctr c)) = BlockSize) by (now apply Encrypt_len).
  assert (Hi : 0 <= BlockSize * a) by nia.
  rewrite XOR_ok by (rewrite !len_sub, He; lia).
  rewrite !len_sub, He by lia.
  replace (Z.min (BlockSize * a + BlockSize - BlockSize * a) BlockSize) with BlockSize by lia.
  replace (BlockSize * a + BlockSize) with (BlockSize * (a + 1)) in * by lia.
  rewrite (from_all (sub dst _ _)) by (rewrite len_sub; lia). rewrite app_nil_r.
  set (x1 := xor_bytes (sub src (BlockSize * a) (BlockSize * (a + 1))) (Encrypt (ctr c))).
  assert (Hx1 : len x1 = BlockSize).
  { unfold x1. rewrite len_xor_bytes, len_sub, He; lia. }
  set (dst1 := upto dst (BlockSize * a) ++ x1 ++ from dst (BlockSize * (a + 1))).
  assert (Hl1 : len dst1 = len dst).
  { unfold dst1. rewrite !len_app, len_upto, len_from, Hx1 by lia. lia. }
  destruct (IH (a + 1) b
              (with_ctr (with_block c (Encrypt (ctr c))) (increment (length (ctr c)) (ctr c)))
              dst1 src) as (c' & Heq & Hc'); try lia.
  { cbn [ctr with_ctr with_block]. now rewrite increment_len. }
  exists c'. rewrite Heq. cbn [ctr with_ctr with_block] in *.
  replace (Z.to_nat (b - a)) with (S (Z.to_nat (b - (a + 1)))) by lia.
  cbn [ctr_stream ctr_adv]. split; [|exact Hc'].
  do 2 f_equal.
  assert (Hu : upto dst1 (BlockSize * (a + 1)) = upto dst (BlockSize * a) ++ x1).
  { unfold dst1. rewrite app_assoc.
    replace (BlockSize * (a + 1)) with (len (upto dst (BlockSize * a) ++ x1))
      by (rewrite len_app, len_upto, Hx1 by lia; lia).
    apply upto_app_l. }
  assert (Hf1 : from dst1 (BlockSize * b) = from dst (BlockSize * b)).
  { unfold dst1. rewrite app_assoc, from_app_r, from_from;
      rewrite ?len_app, ?len_upto, ?Hx1 by lia; try lia.
    f_equal. lia. }
  rewrite Hu, Hf1, <- app_assoc. f_equal. rewrite app_assoc. f_equal.
  rewrite (sub_split src (BlockSize * a) (BlockSize * (a + 1)) (BlockSize * b)) by lia.
  rewrite xor_bytes_len_eq by (rewrite len_sub, He; lia).
  reflexivity.
Qed.

Lemma xor_bytes_firstn (w : list byte) : forall s,
  xor_bytes (firstn (length w) s) w = xor_bytes s w.
Proof.
  induction w as [|y w IH]; intros [|x s]; cbn [length firstn xor_bytes]; try reflexivity.
  now rewrite IH.
Qed.

Lemma xor_bytes_involutive (s : list byte) : forall a,
  len a <= len s -> xor_bytes (xor_bytes a s) s = a.
Proof.
  unfold len. induction s as [|y s IH]; intros [|x a] H; cbn [length] in H;
    cbn [xor_bytes]; try reflexivity; try lia.
  rewrite Z.lxor_assoc, Z.lxor_nilpotent, Z.lxor_0_r, IH by lia. reflexivity.
Qed.

(** [ctrCrypt] XORs the chunks of the loop and at most one more block of
    [src] against the keystream of the counter register, and leaves the rest
    of [dst] as it was. *)
Lemma ctrCrypt_spec (c : eaxCipher) (dst src : list byte) :
  power_of_two BlockSize ->
  len src <= len dst -> len (ctr c) = BlockSize ->
  let n := Z.land (len src) (Z.lnot (len src - BlockSize)) in
  let m := n + Z.min (len src - n) BlockSize in
  exists c',
    ctrCrypt c dst src
    = (c',
       xor_bytes (upto src m) (ctr_stream (S (Z.to_nat (n / BlockSize))) (ctr c))
       ++ from dst m,
       Ok tt).
Proof.
  intros (k & Hk & Hbs) Hd Hc. cbv zeta. unfold ctrCrypt.
  pose proof (ChachaFacts.len_nonneg src) as Hs.
  destruct (mask_multiple k (len src) Hk Hs) as (b & Hb & Hn & Hle).
  rewrite Hbs, Hn, <- Hbs. rewrite <- Hbs in Hle.
  pose proof BlockSize_pos as Hpos.
  assert (Hnn : 0 <= BlockSize * b) by nia.
  replace (BlockSize * b / BlockSize) with b
    by (rewrite Z.mul_comm, Z.div_mul; lia).
  destruct (ctr_loop_spec (S (Z.to_nat (BlockSize * b))) 0 b c dst src)
    as (c1 & Heq & Hc1); try lia; try nia.
  rewrite Z.mul_0_r, Z.sub_0_r in Heq. rewrite Z.sub_0_r in Hc1. rewrite Heq. clear Heq.
  set (ks := ctr_stream (Z.to_nat b) (ctr c)).
  assert (Hks : len ks = BlockSize * b).
  { unfold ks. rewrite ctr_stream_len by assumption. lia. }
  assert (Hsub : sub src 0 (BlockSize * b) = upto src (BlockSize * b)).
  { unfold sub, from. cbn [Z.to_nat skipn]. now rewrite Z.sub_0_r. }
  rewrite Hsub. change (upto dst 0) with (@nil byte). cbn [app].
  set (x := xor_bytes (upto src (BlockSize * b)) ks).
  assert (Hx : len x = BlockSize * b).
  { unfold x. rewrite len_xor_bytes, len_upto, Hks by lia. lia. }
  rewrite ctr_stream_snoc. fold ks.
  assert (Hc1' : len (ctr c1) = BlockSize) by (now rewrite Hc1, ctr_adv_len).
  destruct (BlockSize * b <? len src) eqn:E.
  - destruct (BlockSize * b <=? len (x ++ from dst (BlockSize * b))) eqn:E'.
    2:{ rewrite len_app, Hx, len_from in E' by lia. lia. }
    cbn [block with_block].
    assert (He : len (Encrypt (ctr c1)) = BlockSize) by (now apply Encrypt_len).
    assert (Hfd : from (x ++ from dst (BlockSize * b)) (BlockSize * b)
                  = from dst (BlockSize * b)).
    { rewrite <- Hx. apply from_app_l. }
    assert (Hud : upto (x ++ from dst (BlockSize * b)) (BlockSize * b) = x).
    { rewrite <- Hx. apply upto_app_l. }
    rewrite Hfd, Hud.
    rewrite XOR_ok by (rewrite !len_from, He by lia; lia).
    rewrite len_from, He by lia.
    set (cnt := Z.min (len src - BlockSize * b) BlockSize).
    rewrite from_from by lia.
    eexists. f_equal. f_equal. rewrite app_assoc. f_equal.
    replace (upto src (BlockSize * b + cnt))
      with (upto src (BlockSize * b) ++ sub src (BlockSize * b) (BlockSize * b + cnt)).
    2:{ unfold sub, upto, from.
        replace (Z.to_nat (BlockSize * b + cnt))
          with (Z.to_nat (BlockSize * b) + Z.to_nat cnt)%nat by lia.
        rewrite ChachaFacts.firstn_plus. do 2 f_equal. lia. }
    rewrite xor_bytes_len_eq by (rewrite len_upto, Hks by lia; lia).
    fold x. f_equal. rewrite Hc1.
    set (e := Encrypt (ctr_adv (Z.to_nat b) (ctr c))).
    assert (Hle' : len e = BlockSize) by (unfold e; rewrite <- Hc1; exact He).
    unfold sub. replace (BlockSize * b + cnt - BlockSize * b) with cnt by lia.
    destruct (Z_le_dec (len src - BlockSize * b) BlockSize) as [Hfit|Hlong].
    + rewrite upto_all by (rewrite len_from by lia; lia). reflexivity.
    + unfold upto. replace (Z.to_nat cnt) with (length e) by (unfold len in Hle'; lia).
      symmetry. apply xor_bytes_firstn.
  - replace (BlockSize * b + Z.min (len src - BlockSize * b) BlockSize)
      with (BlockSize * b) by lia.
    eexists. f_equal. f_equal. f_equal. fold x. unfold x.
    symmetry. unfold len in *. apply ChachaFacts.xor_bytes_short.
    unfold upto. rewrite length_firstn. lia.
Qed.

(** *** The domain tags *)

Lemma make_snoc (n : Z) : 1 <= n -> make n = make (n - 1) ++ [0].
Proof.
  intros H. unfold make.
  replace (Z.to_nat n) with (Z.to_nat (n - 1) + 1)%nat by lia.
  apply repeat_app.
Qed.

Lemma tagged_snoc (p : list byte) (a t : byte) : tagged (p ++ [a]) t = p ++ [t].
Proof.
  unfold tagged, store. pose proof (ChachaFacts.len_nonneg p) as Hp.
  rewrite len_app, len_cons. change (len (@nil byte)) with 0.
  destruct ((0 <=? len p + (1 + 0) - 1) && (len p + (1 + 0) - 1 <? len p + (1 + 0))) eqn:E;
    [|apply andb_false_iff in E; lia].
  unfold upto, from, len.
  replace (Z.to_nat (Z.of_nat (length p) + (1 + 0) - 1)) with (length p + 0)%nat by lia.
  replace (Z.to_nat (Z.of_nat (length p) + (1 + 0) - 1 + 1)) with (length p + 1)%nat by lia.
  rewrite firstn_app_2, skipn_all2 by (rewrite length_app; cbn [length]; lia).
  cbn [firstn]. now rewrite app_nil_r.
Qed.

Lemma tagged_make (t : byte) : tagged (make mac_BlockSize) t = prefix t.
Proof.
  unfold mac_BlockSize, prefix. pose proof BlockSize_pos.
  rewrite make_snoc by lia. apply tagged_snoc.
Qed.

Lemma tagged_prefix (a t : byte) : tagged (prefix a) t = prefix t.
Proof. apply tagged_snoc. Qed.

(** *** [Seal] and [Open] on an idle cipher *)

Lemma with_mac_idle (c : eaxCipher) : mac c = [] -> with_mac c [] = c.
Proof. destruct c as [a b m s]. cbn. now intros ->. Qed.

Lemma Seal_spec (c : eaxCipher) (dst nonce plaintext additionalData : list byte) :
  power_of_two BlockSize -> idle c ->
  len nonce = BlockSize -> len plaintext <= len dst ->
  let body := ctr_body c dst nonce plaintext in
  exists c',
    Seal c dst nonce plaintext additionalData
    = (c', Ok (body ++ auth_tag nonce body additionalData (size c)))
    /\ len body = len plaintext.
Proof.
  intros Hpow (Hctr & Hmac & Hsize) Hn Hd. unfold Seal.
  rewrite Hn, Z.eqb_refl. cbn [negb].
  destruct (len dst <? len plaintext) eqn:E; [lia|]. clear E. cbv zeta.
  rewrite tagged_make, !tagged_prefix, Hmac. unfold Write, Sum, Reset. cbn [app].
  rewrite copy_full by (now rewrite digest_len).
  set (c0 := with_mac _ _).
  destruct (ctrCrypt_ok c0 dst plaintext Hpow Hd) as (c1 & d1 & Heq & Hl & _);
    [unfold c0; cbn; apply digest_len|].
  pose proof (ctrCrypt_frame c0 dst plaintext) as Hf. rewrite Heq in Hf.
  cbn [fst snd] in Hf. destruct Hf as (_ & Hm1 & Hs1).
  pose proof (ctrCrypt_indep c0 (with_ctr c (digest (prefix nTag ++ nonce))) dst plaintext
                eq_refl) as (Hb & _).
  rewrite Heq in Hb. cbn [fst snd] in Hb.
  rewrite Heq. unfold ctr_body. rewrite <- Hb.
  unfold c0 in Hm1, Hs1. cbn [mac size with_mac with_ctr] in Hm1, Hs1.
  rewrite Hm1, Hs1. cbn [app]. unfold upto at 2. cbn [Z.to_nat firstn app].
  eexists. split; [reflexivity|].
  apply len_upto. pose proof (ChachaFacts.len_nonneg plaintext). lia.
Qed.

(** What [Seal] returns, from what the counter-mode core returns. *)
Lemma Seal_outcome (c : eaxCipher) (dst nonce plaintext additionalData : list byte) :
  idle c -> len nonce = BlockSize -> len plaintext <= len dst ->
  let body := ctr_body c dst nonce plaintext in
  snd (Seal c dst nonce plaintext additionalData)
  = match snd (ctrCrypt (with_ctr c (digest (prefix nTag ++ nonce))) dst plaintext) with
    | Ok _ => Ok (body ++ auth_tag nonce body additionalData (size c))
    | Panic p => Panic p
    end.
Proof.
  intros (Hctr & Hmac & Hsize) Hn Hd. unfold Seal.
  rewrite Hn, Z.eqb_refl. cbn [negb].
  destruct (len dst <? len plaintext) eqn:E; [lia|]. clear E. cbv zeta.
  rewrite tagged_make, !tagged_prefix, Hmac. unfold Write, Sum, Reset. cbn [app].
  rewrite copy_full by (now rewrite digest_len).
  set (c0 := with_mac _ _).
  pose proof (ctrCrypt_indep c0 (with_ctr c (digest (prefix nTag ++ nonce))) dst plaintext
                eq_refl) as (Hb & Hr).
  pose proof (ctrCrypt_frame c0 dst plaintext) as (_ & Hm1 & Hs1).
  unfold ctr_body. rewrite <- Hb, <- Hr.
  destruct (ctrCrypt c0 dst plaintext) as [[c1 d1] r1]. cbn [fst snd] in *.
  unfold c0 in Hm1, Hs1. cbn [mac size with_mac with_ctr] in Hm1, Hs1.
  destruct r1 as [[]|p]; [|reflexivity].
  cbn [snd]. rewrite Hm1, Hs1. cbn [app]. unfold upto at 2. cbn [Z.to_nat firstn app].
  reflexivity.
Qed.


(** The outcome of [Seal] is the same on any two idle ciphers of the same
    tag size. *)
Lemma Seal_indep (c1 c2 : eaxCipher) (dst nonce plaintext additionalData : list byte) :
  idle c1 -> idle c2 -> size c1 = size c2 ->
  snd (Seal c1 dst nonce plaintext additionalData)
  = snd (Seal c2 dst nonce plaintext additionalData).
Proof.
  intros (Hc1 & Hm1 & _) (Hc2 & Hm2 & _) Hs. unfold Seal.
  destruct (negb (len nonce =? BlockSize)); [reflexivity|].
  destruct (len dst <? len plaintext); [reflexivity|]. cbv zeta.
  rewrite Hm1, Hm2. unfold Write, Sum, Reset. cbn [app].
  rewrite !copy_full by (now rewrite digest_len).
  set (a1 := with_mac (with_ctr c1 _) _). set (a2 := with_mac (with_ctr c2 _) _).
  pose proof (ctrCrypt_indep a1 a2 dst plaintext eq_refl) as (Hd & Hr).
  pose proof (ctrCrypt_frame a1 dst plaintext) as (_ & Hma & Hsa).
  pose proof (ctrCrypt_frame a2 dst plaintext) as (_ & Hmb & Hsb).
  destruct (ctrCrypt a1 dst plaintext) as [[b1 d1] r1].
  destruct (ctrCrypt a2 dst plaintext) as [[b2 d2] r2].
  cbn [fst snd] in *. subst d2 r2.
  destruct r1 as [[]|p]; [|reflexivity].
  cbn [snd]. rewrite Hma, Hmb, Hsa, Hsb. unfold a1, a2. cbn [mac size with_mac with_ctr].
  now rewrite Hs.
Qed.

Lemma Seal_idle (c : eaxCipher) (dst nonce plaintext additionalData : list byte) :
  idle c ->
  idle (fst (Seal c dst nonce plaintext additionalData))
  /\ size (fst (Seal c dst nonce plaintext additionalData)) = size c.
Proof.
  intros (Hc & Hm & Hs). unfold Seal.
  destruct (negb (len nonce =? BlockSize)); [cbn; unfold idle; auto|].
  destruct (len dst <? len plaintext); [cbn; unfold idle; auto|]. cbv zeta.
  set (a := with_mac (with_ctr c _) _).
  pose proof (ctrCrypt_frame a dst plaintext) as (Hca & Hma & Hsa).
  destruct (ctrCrypt a dst plaintext) as [[b d] r]. cbn [fst snd] in *.
  unfold a in Hca, Hma, Hsa. cbn [ctr mac size with_mac with_ctr] in Hca, Hma, Hsa.
  rewrite len_copy in Hca. unfold Reset in Hma.
  destruct r as [[]|p]; cbn [fst]; unfold idle; cbn [ctr mac size with_mac];
    unfold Reset; repeat split; try lia; auto.
Qed.

(** [Open] past its three entry checks: the tag it recomputes decides. *)
Lemma Open_spec (c : eaxCipher) (dst nonce ciphertext additionalData : list byte) :
  idle c -> len nonce = BlockSize -> size c <= len ciphertext ->
  len ciphertext - mac_Size <= len dst ->
  let hash := from ciphertext (len ciphertext - size c) in
  let body := upto ciphertext (len ciphertext - size c) in
  Open c dst nonce ciphertext additionalData
  = if bytes_eqb (auth_tag nonce body additionalData (size c)) hash
    then
      let '(c', dst', r) :=
        ctrCrypt (with_ctr c (digest (prefix nTag ++ nonce))) dst body in
      match r with
      | Panic p => (c', dst', Panic p)
      | Ok _ =>
          if len body <=? len dst' then (c', dst', Ok (Val (upto dst' (len body))))
          else (c', dst', Panic OutOfRange)
      end
    else (c, dst, Ok (Err AuthenticationError)).
Proof.
  intros (Hctr & Hmac & Hsize) Hn Hs Hd. unfold Open.
  rewrite Hn, Z.eqb_refl. cbn [negb].
  destruct (len ciphertext <? size c) eqn:E; [lia|]. clear E.
  destruct (len dst <? len ciphertext - mac_Size) eqn:E; [lia|]. clear E. cbv zeta.
  rewrite tagged_make, !tagged_prefix, Hmac. unfold Write, Sum, Reset. cbn [app].
  unfold upto at 2. cbn [Z.to_nat firstn app].
  rewrite (with_mac_idle c Hmac).
  unfold ConstantTimeCompare, auth_tag.
  destruct (bytes_eqb _ _); cbn [Z.eqb negb Pos.eqb]; [|reflexivity].
  now rewrite copy_full by (now rewrite digest_len).
Qed.

Lemma Open_idle (c : eaxCipher) (dst nonce ciphertext additionalData : list byte) :
  idle c ->
  idle (fst (fst (Open c dst nonce ciphertext additionalData)))
  /\ size (fst (fst (Open c dst nonce ciphertext additionalData))) = size c.
Proof.
  intros (Hc & Hm & Hs). unfold Open.
  destruct (negb (len nonce =? BlockSize)); [cbn; unfold idle; auto|].
  destruct (len ciphertext <? size c); [cbn; unfold idle; auto|].
  destruct (len dst <? len ciphertext - mac_Size); [cbn; unfold idle; auto|]. cbv zeta.
  unfold Reset.
  destruct (negb (ConstantTimeCompare _ _ =? 1)).
  - cbn [fst]. unfold idle. cbn [ctr mac size with_mac]. auto.
  - cbn [size ctr with_mac].
    match goal with
    | |- context [ctrCrypt ?a ?d ?s] =>
        pose proof (ctrCrypt_frame a d s) as (Hca & Hma & Hsa);
        destruct (ctrCrypt a d s) as [[b d'] r]
    end.
    cbn [fst snd ctr mac size with_mac with_ctr] in Hca, Hma, Hsa.
    rewrite len_copy in Hca.
    destruct r as [[]|p];
      [destruct (len (upto ciphertext (len ciphertext - size c)) <=? len d')|];
      cbn [fst]; unfold idle; repeat split; try lia; auto.
Qed.

Lemma NewEAX_idle (tagsize : Z) (c : eaxCipher) :
  NewEAX tagsize = Val c -> idle c /\ size c = tagsize.
Proof.
  unfold NewEAX. destruct New_error; [discriminate|].
  destruct ((tagsize <? 1) || (BlockSize <? tagsize)) eqn:E; [discriminate|].
  apply orb_false_iff in E. intros H. injection H as <-.
  pose proof BlockSize_pos. unfold idle. cbn [ctr mac size].
  rewrite len_make by lia. repeat split; lia.
Qed.

Lemma reachable_idle (tagsize : Z) (c : eaxCipher) :
  reachable tagsize c -> idle c /\ size c = tagsize.
Proof.
  induction 1 as [c H | c dst nonce p a _ [IH1 IH2] | c dst nonce p a _ [IH1 IH2]].
  - now apply NewEAX_idle.
  - destruct (Seal_idle c dst nonce p a IH1) as [H1 H2]. split; [assumption|lia].
  - destruct (Open_idle c dst nonce p a IH1) as [H1 H2]. split; [assumption|lia].
Qed.

(** *** The counter-mode core on three blocks *)

(** C2 fails on the code.  For a block size of 16 bytes and a source of 48
    bytes, the chunk count [length & ^(length - bs)] is 16, not 48:
    [ctrCrypt] returns with [dst] as it was from byte 32 on, it has not
    XORed the third block of [src] into it. *)
Theorem ctrCrypt_skips_third_block (c : eaxCipher) (dst src : list byte) :
  BlockSize = 16 -> len (ctr c) = 16 -> len src = 48 -> 48 <= len dst ->
  Z.land (len src) (Z.lnot (len src - BlockSize)) = 16
  /\ exists c' dst',
       ctrCrypt c dst src = (c', dst', Ok tt)
       /\ len dst' = len dst
       /\ from dst' 32 = from dst 32.
Proof.
  intros Hbs Hc Hs Hd. split; [now rewrite Hs, Hbs|].
  destruct (ctrCrypt_ok c dst src) as (c' & dst' & Heq & Hl & Hu).
  - exists 4. split; [lia|exact Hbs].
  - lia.
  - lia.
  - rewrite Hs, Hbs in Hu. change (Z.land 48 (Z.lnot (48 - 16))) with 16 in Hu.
    change (16 + Z.min (48 - 16) 16) with 32 in Hu.
    exists c', dst'. repeat split; assumption.
Qed.

(** *** The constructor *)

(** C9. For a block cipher the CMAC constructor accepts, [NewEAX] returns
    a cipher exactly when the tag size lies between 1 and the block size,
    and an error otherwise: it succeeds for the tag sizes 1 and
    [BlockSize], and fails for 0 and [BlockSize + 1]. *)
Theorem NewEAX_tag_size (tagsize : Z) :
  New_error = None ->
  ((exists c, NewEAX tagsize = Val c) <-> 1 <= tagsize <= BlockSize)
  /\ ((exists e, NewEAX tagsize = Err e) <-> ~ (1 <= tagsize <= BlockSize))
  /\ (exists c, NewEAX 1 = Val c)
  /\ (exists c, NewEAX BlockSize = Val c)
  /\ (exists e, NewEAX 0 = Err e)
  /\ (exists e, NewEAX (BlockSize + 1) = Err e).
Proof.
  intros Hnew. pose proof BlockSize_pos as Hpos.
  assert (Hin : forall t, 1 <= t <= BlockSize -> exists c, NewEAX t = Val c).
  { intros t Ht. unfold NewEAX. rewrite Hnew.
    destruct ((t <? 1) || (BlockSize <? t)) eqn:E; [|eauto].
    apply orb_true_iff in E. lia. }
  assert (Hout : forall t, ~ (1 <= t <= BlockSize) -> exists e, NewEAX t = Err e).
  { intros t Ht. unfold NewEAX. rewrite Hnew.
    destruct ((t <? 1) || (BlockSize <? t)) eqn:E; [eauto|].
    apply orb_false_iff in E. lia. }
  assert (Hdec : 1 <= tagsize <= BlockSize \/ ~ (1 <= tagsize <= BlockSize)) by lia.
  split; [split|split; [split|]].
  - intros [c Hc]. destruct Hdec as [Ht|Ht]; [exact Ht|].
    destruct (Hout tagsize Ht) as [e He]. rewrite He in Hc. discriminate.
  - apply Hin.
  - intros [e He] Ht. destruct (Hin tagsize Ht) as [c Hc]. rewrite Hc in He. discriminate.
  - apply Hout.
  - split; [apply Hin; lia|]. split; [apply Hin; lia|].
    split; apply Hout; lia.
Qed.

(** *** [Seal] *)

(** C10. The outcome of a [Seal] call depends on its arguments only: on any
    two states of a cipher, whatever calls of [Seal] and [Open] led to them,
    [Seal] with the same arguments returns the same value. *)
Theorem Seal_history_independent (tagsize : Z) (c1 c2 : eaxCipher)
    (dst nonce plaintext additionalData : list byte) :
  reachable tagsize c1 -> reachable tagsize c2 ->
  snd (Seal c1 dst nonce plaintext additionalData)
  = snd (Seal c2 dst nonce plaintext additionalData).
Proof.
  intros H1 H2.
  destruct (reachable_idle tagsize c1 H1) as [Hi1 Hs1].
  destruct (reachable_idle tagsize c2 H2) as [Hi2 Hs2].
  apply Seal_indep; try assumption. lia.
Qed.

(** *** [Open] *)

Lemma Open_mismatch (c : eaxCipher) (dst nonce ciphertext additionalData : list byte) :
  idle c -> len nonce = BlockSize -> size c <= len ciphertext ->
  len ciphertext - mac_Size <= len dst ->
  auth_tag nonce (upto ciphertext (len ciphertext - size c)) additionalData (size c)
  <> from ciphertext (len ciphertext - size c) ->
  Open c dst nonce ciphertext additionalData = (c, dst, Ok (Err AuthenticationError)).
Proof.
  intros Hi Hn Hs Hd Hne. rewrite Open_spec by assumption. cbv zeta.
  destruct (bytes_eqb _ _) eqn:E; [|reflexivity].
  apply bytes_eqb_eq in E. contradiction.
Qed.

(** C5. When [Open], past its entry checks, recomputes a tag that differs
    from the received one, it returns the authentication error and leaves
    the cipher and [dst] as they were: the counter-mode core does not run.
    Conversely, when [Open] returns a plaintext, or changes [dst], the tags
    matched. *)
Theorem Open_rejects_mismatch (tagsize : Z) (c : eaxCipher)
    (dst nonce ciphertext additionalData : list byte) :
  reachable tagsize c ->
  len nonce = BlockSize -> tagsize <= len ciphertext ->
  len ciphertext - BlockSize <= len dst ->
  let received := from ciphertext (len ciphertext - tagsize) in
  let body := upto ciphertext (len ciphertext - tagsize) in
  let recomputed := auth_tag nonce body additionalData tagsize in
  (recomputed <> received ->
   Open c dst nonce ciphertext additionalData = (c, dst, Ok (Err AuthenticationError)))
  /\ (forall c' dst' p,
        Open c dst nonce ciphertext additionalData = (c', dst', Ok (Val p)) ->
        recomputed = received)
  /\ (snd (fst (Open c dst nonce ciphertext additionalData)) <> dst ->
      recomputed = received).
Proof.
  intros Hr Hn Hs Hd received body recomputed.
  destruct (reachable_idle tagsize c Hr) as [Hi Hsz].
  assert (Hm : recomputed <> received ->
               Open c dst nonce ciphertext additionalData
               = (c, dst, Ok (Err AuthenticationError))).
  { intros Hne. apply Open_mismatch; rewrite ?Hsz; assumption. }
  assert (Hdec : recomputed = received \/ recomputed <> received).
  { destruct (bytes_eqb recomputed received) eqn:E.
    - left. now apply bytes_eqb_eq.
    - right. intros Heq. apply bytes_eqb_eq in Heq. congruence. }
  split; [exact Hm|]. split.
  - intros c' dst' p Hopen. destruct Hdec as [Heq|Hne]; [assumption|].
    rewrite (Hm Hne) in Hopen. discriminate.
  - intros Hdst. destruct Hdec as [Heq|Hne]; [assumption|].
    rewrite (Hm Hne) in Hdst. cbn [fst snd] in Hdst. contradiction.
Qed.

(** C8. For a nonce of one block, [Open] on a ciphertext shorter than the
    tag returns the authentication error, without touching the cipher or
    [dst]: the very value it returns when the tag it recomputes differs
    from the received one. *)
Theorem Open_short_ciphertext (tagsize : Z) (c : eaxCipher)
    (dst nonce ciphertext additionalData : list byte) :
  reachable tagsize c ->
  len nonce = BlockSize -> len ciphertext < tagsize ->
  Open c dst nonce ciphertext additionalData = (c, dst, Ok (Err AuthenticationError))
  /\ forall dst' nonce' ciphertext' additionalData',
       len nonce' = BlockSize -> tagsize <= len ciphertext' ->
       len ciphertext' - BlockSize <= len dst' ->
       auth_tag nonce' (upto ciphertext' (len ciphertext' - tagsize)) additionalData' tagsize
       <> from ciphertext' (len ciphertext' - tagsize) ->
       snd (Open c dst' nonce' ciphertext' additionalData')
       = snd (Open c dst nonce ciphertext additionalData).
Proof.
  intros Hr Hn Hs. destruct (reachable_idle tagsize c Hr) as [Hi Hsz].
  assert (Hshort : Open c dst nonce ciphertext additionalData
                   = (c, dst, Ok (Err AuthenticationError))).
  { unfold Open. rewrite Hn, Z.eqb_refl. cbn [negb].
    destruct (len ciphertext <? size c) eqn:E; [reflexivity|lia]. }
  split; [exact Hshort|].
  intros dst' nonce' ciphertext' additionalData' Hn' Hs' Hd' Hne.
  rewrite Hshort, Open_mismatch; rewrite ?Hsz; try assumption. reflexivity.
Qed.

(** Past the check [Open] makes, the panic of that check does not occur. *)
Lemma Open_no_size_panic (c : eaxCipher) (dst nonce ciphertext additionalData : list byte) :
  idle c -> len nonce = BlockSize -> size c <= len ciphertext ->
  len ciphertext - BlockSize <= len dst ->
  snd (Open c dst nonce ciphertext additionalData) <> Panic (Msg "dst buffer to small").
Proof.
  intros Hi Hn Hs Hd. rewrite Open_spec by assumption. cbv zeta.
  destruct (bytes_eqb _ _); [|cbn; discriminate].
  match goal with
  | |- context [ctrCrypt ?a ?d ?s] =>
      pose proof (ctrCrypt_panic a d s) as Hp; destruct (ctrCrypt a d s) as [[c' d'] r]
  end.
  cbn [snd] in Hp. destruct Hp as [-> | ->]; [|cbn; discriminate].
  match goal with |- context [if ?b then _ else _] => destruct b end; cbn; discriminate.
Qed.

(** A [dst] as long as the ciphertext body is not rejected for its size. *)
Lemma Open_large_dst_accepted (tagsize : Z) (c : eaxCipher)
    (dst nonce ciphertext additionalData : list byte) :
  reachable tagsize c ->
  len nonce = BlockSize -> tagsize <= len ciphertext ->
  len ciphertext - tagsize <= len dst ->
  snd (Open c dst nonce ciphertext additionalData) <> Panic (Msg "dst buffer to small").
Proof.
  intros Hr Hn Hs Hd. destruct (reachable_idle tagsize c Hr) as [Hi Hsz].
  apply Open_no_size_panic; rewrite ?Hsz; try assumption.
  destruct Hi as (_ & _ & Hb). lia.
Qed.

(** C6 fails on the code.  [Open] compares [len(dst)] with
    [len(ciphertext) - c.mac.Size()], the block size standing where the tag
    size should: a [dst] shorter than the ciphertext body, but not by more
    than the block size less the tag size, passes the check, and [Open]
    does not panic with the message of the check; when the tag does not
    match it returns the authentication error. *)
Theorem Open_short_dst_not_rejected (tagsize : Z) (c : eaxCipher)
    (dst nonce ciphertext additionalData : list byte) :
  reachable tagsize c ->
  len nonce = BlockSize -> tagsize <= len ciphertext ->
  len ciphertext - BlockSize <= len dst ->
  len dst < len ciphertext - tagsize ->
  snd (Open c dst nonce ciphertext additionalData) <> Panic (Msg "dst buffer to small")
  /\ (auth_tag nonce (upto ciphertext (len ciphertext - tagsize)) additionalData tagsize
      <> from ciphertext (len ciphertext - tagsize) ->
      Open c dst nonce ciphertext additionalData = (c, dst, Ok (Err AuthenticationError))).
Proof.
  intros Hr Hn Hs Hd Hshort. destruct (reachable_idle tagsize c Hr) as [Hi Hsz].
  split.
  - apply Open_no_size_panic; rewrite ?Hsz; assumption.
  - intros Hne. apply Open_mismatch; rewrite ?Hsz; assumption.
Qed.

(** *** Sealing and opening three blocks *)

(** C1 fails on the code.  For a block size of 16 bytes, [Seal] of a
    48-byte plaintext returns a ciphertext that [Open] accepts, and [Open]
    returns 48 bytes whose last 16 are those its [dst] held before the
    call: not the plaintext, unless [dst] held it already. *)
Theorem roundtrip_breaks_at_three_blocks (tagsize : Z) (c : eaxCipher)
    (dst nonce plaintext additionalData dst2 : list byte) :
  BlockSize = 16 ->
  reachable tagsize c ->
  len nonce = 16 -> len plaintext = 48 -> 48 <= len dst -> 48 <= len dst2 ->
  sub dst2 32 48 <> from plaintext 32 ->
  exists c1 sealed c2 dst2' out,
    Seal c dst nonce plaintext additionalData = (c1, Ok sealed)
    /\ Open c1 dst2 nonce sealed additionalData = (c2, dst2', Ok (Val out))
    /\ from out 32 = sub dst2 32 48
    /\ out <> plaintext.
Proof.
  intros Hbs Hr Hn Hp Hd Hd2 Hne.
  assert (Hpow : power_of_two BlockSize) by (exists 4; split; [lia|exact Hbs]).
  destruct (reachable_idle tagsize c Hr) as [Hi Hsz].
  destruct (Seal_spec c dst nonce plaintext additionalData Hpow Hi) as (c1 & Hseal & Hlb);
    try lia.
  set (body := ctr_body c dst nonce plaintext) in *.
  set (tag := auth_tag nonce body additionalData (size c)) in *.
  destruct (Seal_idle c dst nonce plaintext additionalData Hi) as [Hi1 Hsz1].
  rewrite Hseal in Hi1, Hsz1. cbn [fst] in Hi1, Hsz1.
  assert (Hlt : len tag = size c).
  { unfold tag, auth_tag. apply len_upto. rewrite !len_xor_bytes, !digest_len.
    destruct Hi as (_ & _ & Hs). lia. }
  assert (Hb : upto (body ++ tag) (len (body ++ tag) - size c1) = body).
  { rewrite len_app, Hsz1, Hlt. replace (len body + size c - size c) with (len body) by lia.
    apply upto_app_l. }
  assert (Ht : from (body ++ tag) (len (body ++ tag) - size c1) = tag).
  { rewrite len_app, Hsz1, Hlt. replace (len body + size c - size c) with (len body) by lia.
    apply from_app_l. }
  pose proof (Open_spec c1 dst2 nonce (body ++ tag) additionalData Hi1) as Hopen.
  cbv zeta in Hopen. rewrite Hb, Ht, Hsz1 in Hopen. fold tag in Hopen.
  assert (Heqb : bytes_eqb tag tag = true) by (now apply bytes_eqb_eq).
  rewrite Heqb in Hopen.
  destruct (ctrCrypt_ok (with_ctr c1 (digest (prefix nTag ++ nonce))) dst2 body Hpow)
    as (c2 & d2 & Hctr & Hl2 & Hu2); [lia | cbn; apply digest_len |].
  rewrite Hctr in Hopen.
  rewrite Hlb, Hp, Hbs in Hu2. change (Z.land 48 (Z.lnot (48 - 16))) with 16 in Hu2.
  change (16 + Z.min (48 - 16) 16) with 32 in Hu2.
  destruct (len body <=? len d2) eqn:E; [|lia].
  exists c1, (body ++ tag), c2, d2, (upto d2 (len body)).
  assert (Hout : from (upto d2 (len body)) 32 = sub dst2 32 48).
  { rewrite Hlb, Hp, from_upto by lia. unfold sub. now rewrite Hu2. }
  split; [exact Hseal|]. split; [|split; [exact Hout|]].
  - apply Hopen; rewrite ?len_app, ?Hlt; unfold mac_Size;
      destruct Hi as (_ & _ & Hs); lia.
  - intros Heq. apply Hne. now rewrite <- Hout, Heq.
Qed.

(** Where the chunk count of [ctrCrypt] leaves at most one block of the
    plaintext, as it does below three blocks, [Open] returns what [Seal]
    was given. *)
Lemma roundtrip_when_tail_fits (tagsize : Z) (c : eaxCipher)
    (dst nonce plaintext additionalData dst2 : list byte) :
  power_of_two BlockSize ->
  reachable tagsize c ->
  len nonce = BlockSize -> len plaintext <= len dst -> len plaintext <= len dst2 ->
  len plaintext - Z.land (len plaintext) (Z.lnot (len plaintext - BlockSize)) <= BlockSize ->
  exists c1 sealed c2 dst2',
    Seal c dst nonce plaintext additionalData = (c1, Ok sealed)
    /\ Open c1 dst2 nonce sealed additionalData = (c2, dst2', Ok (Val plaintext)).
Proof.
  intros Hpow Hr Hn Hd Hd2 Hfit.
  destruct (reachable_idle tagsize c Hr) as [Hi Hsz].
  destruct (Seal_spec c dst nonce plaintext additionalData Hpow Hi) as (c1 & Hseal & Hlb);
    try assumption.
  set (body := ctr_body c dst nonce plaintext) in *.
  set (tag := auth_tag nonce body additionalData (size c)) in *.
  destruct (Seal_idle c dst nonce plaintext additionalData Hi) as [Hi1 Hsz1].
  rewrite Hseal in Hi1, Hsz1. cbn [fst] in Hi1, Hsz1.
  assert (Hlt : len tag = size c).
  { unfold tag, auth_tag. apply len_upto. rewrite !len_xor_bytes, !digest_len.
    destruct Hi as (_ & _ & Hs). lia. }
  assert (Hb : upto (body ++ tag) (len (body ++ tag) - size c1) = body).
  { rewrite len_app, Hsz1, Hlt. replace (len body + size c - size c) with (len body) by lia.
    apply upto_app_l. }
  assert (Ht : from (body ++ tag) (len (body ++ tag) - size c1) = tag).
  { rewrite len_app, Hsz1, Hlt. replace (len body + size c - size c) with (len body) by lia.
    apply from_app_l. }
  pose proof (Open_spec c1 dst2 nonce (body ++ tag) additionalData Hi1) as Hopen.
  cbv zeta in Hopen. rewrite Hb, Ht, Hsz1 in Hopen. fold tag in Hopen.
  assert (Heqb : bytes_eqb tag tag = true) by (now apply bytes_eqb_eq).
  rewrite Heqb in Hopen.
  (* the keystream of both calls *)
  pose proof (ChachaFacts.len_nonneg plaintext) as Hp0.
  pose proof BlockSize_pos as Hpos.
  set (seed := digest (prefix nTag ++ nonce)) in *.
  set (n := Z.land (len plaintext) (Z.lnot (len plaintext - BlockSize))) in *.
  set (ks := ctr_stream (S (Z.to_nat (n / BlockSize))) seed).
  assert (Hks : len plaintext <= len ks).
  { destruct Hpow as (k & Hk & Hbs).
    destruct (mask_multiple k (len plaintext) Hk Hp0) as (b & Hb0 & Hnb & Hle).
    rewrite <- Hbs in Hnb, Hle. fold n in Hnb.
    unfold ks. rewrite ctr_stream_len by apply digest_len.
    replace (n / BlockSize) with b by (rewrite Hnb, Z.mul_comm, Z.div_mul; lia).
    nia. }
  assert (Hn0 : 0 <= n) by (apply Z.land_nonneg; now left).
  assert (Hm : n + Z.min (len plaintext - n) BlockSize = len plaintext) by lia.
  (* the body is the plaintext XORed with it *)
  assert (Hbody : body = xor_bytes plaintext ks).
  { unfold body, ctr_body. fold seed.
    destruct (ctrCrypt_spec (with_ctr c seed) dst plaintext Hpow Hd) as (c' & Heq);
      [cbn; apply digest_len|].
    cbv zeta in Heq. fold n in Heq. rewrite Hm in Heq. cbn [ctr with_ctr] in Heq.
    fold ks in Heq. rewrite Heq. cbn [fst snd].
    rewrite (upto_all plaintext) by lia.
    replace (len plaintext) with (len (xor_bytes plaintext ks)) at 2
      by (rewrite len_xor_bytes; lia).
    apply upto_app_l. }
  destruct (ctrCrypt_spec (with_ctr c1 seed) dst2 body Hpow) as (c2 & Heq2);
    [lia | cbn; apply digest_len |].
  cbv zeta in Heq2. rewrite Hlb in Heq2. fold n in Heq2. rewrite Hm in Heq2.
  cbn [ctr with_ctr] in Heq2. fold ks in Heq2.
  rewrite (upto_all body) in Heq2 by lia.
  rewrite Heq2 in Hopen.
  set (d2 := xor_bytes body ks ++ from dst2 (len plaintext)) in *.
  assert (Hxl : len (xor_bytes body ks) = len body) by (rewrite len_xor_bytes; lia).
  assert (Hl2 : len body <= len d2).
  { unfold d2. rewrite len_app, Hxl, len_from by lia. lia. }
  destruct (len body <=? len d2) eqn:E; [|lia].
  assert (Hout : upto d2 (len body) = plaintext).
  { unfold d2. rewrite <- Hxl, upto_app_l, Hbody. now apply xor_bytes_involutive. }
  rewrite Hout in Hopen.
  exists c1, (body ++ tag), c2, d2. split; [exact Hseal|].
  apply Hopen; rewrite ?len_app, ?Hlt; unfold mac_Size;
    destruct Hi as (_ & _ & Hs); lia.
Qed.

End WithCipher.

(** For a block size of 16 bytes the chunk count leaves at most one block
    for every length below 48, and two blocks at 48. *)
Example tail_fits_below_48 :
  forallb (fun l => l - Z.land l (Z.lnot (l - 16)) <=? 16) (map Z.of_nat (seq 0 48)) = true
  /\ 48 - Z.land 48 (Z.lnot (48 - 16)) = 32.
Proof. split; vm_compute; reflexivity. Qed.

(** *** The theorems on the 16-byte cipher *)

Lemma toy_power_of_two : power_of_two (@BlockSize toy_block).
Proof. exists 4. split; [lia|reflexivity]. Defined.

Lemma toy_reachable (tagsize : Z) :
  1 <= tagsize <= 16 -> @reachable toy_block toy_mac tagsize (toy_eax tagsize).
Proof.
  intros H. apply reach_NewEAX. unfold NewEAX. cbn [New_error toy_mac].
  destruct ((tagsize <? 1) || (@BlockSize toy_block <? tagsize)) eqn:E.
  - apply orb_true_iff in E. cbn [BlockSize toy_block] in E. lia.
  - reflexivity.
Defined.

Lemma roundtrip_breaks_witness :
  exists c1 sealed c2 dst2' out,
    @Seal toy_block toy_mac (toy_eax 16) (make 48) (make 16) (count_up 48) [] = (c1, Ok sealed)
    /\ @Open toy_block toy_mac c1 (make 48) (make 16) sealed [] = (c2, dst2', Ok (Val out))
    /\ from out 32 = sub (make 48) 32 48
    /\ out <> count_up 48.
Proof.
  apply (@roundtrip_breaks_at_three_blocks toy_block toy_mac 16 (toy_eax 16)).
  - reflexivity.
  - apply toy_reachable. lia.
  - reflexivity.
  - reflexivity.
  - vm_compute. discriminate.
  - vm_compute. discriminate.
  - vm_compute. discriminate.
Defined.

Lemma ctrCrypt_skips_witness :
  Z.land (len (count_up 48)) (Z.lnot (len (count_up 48) - @BlockSize toy_block)) = 16
  /\ exists c' dst',
       @ctrCrypt toy_block (toy_eax 16) (make 48) (count_up 48) = (c', dst', Ok tt)
       /\ len dst' = len (make 48)
       /\ from dst' 32 = from (make 48) 32.
Proof.
  apply (@ctrCrypt_skips_third_block toy_block (toy_eax 16) (make 48) (count_up 48)).
  - reflexivity.
  - reflexivity.
  - reflexivity.
  - vm_compute. discriminate.
Defined.

Lemma NewEAX_tag_size_witness :
  ((exists c, @NewEAX toy_block toy_mac 4 = Val c) <-> 1 <= 4 <= @BlockSize toy_block)
  /\ ((exists e, @NewEAX toy_block toy_mac 4 = Err e) <-> ~ (1 <= 4 <= @BlockSize toy_block))
  /\ (exists c, @NewEAX toy_block toy_mac 1 = Val c)
  /\ (exists c, @NewEAX toy_block toy_mac (@BlockSize toy_block) = Val c)
  /\ (exists e, @NewEAX toy_block toy_mac 0 = Err e)
  /\ (exists e, @NewEAX toy_block toy_mac (@BlockSize toy_block + 1) = Err e).
Proof. apply (@NewEAX_tag_size toy_block toy_mac 4). reflexivity. Defined.

Lemma Seal_history_independent_witness :
  snd (@Seal toy_block toy_mac (toy_eax 16) (make 20) (make 16) (count_up 17) [9; 9])
  = snd (@Seal toy_block toy_mac toy_eax_used (make 20) (make 16) (count_up 17) [9; 9]).
Proof.
  apply (@Seal_history_independent toy_block toy_mac 16).
  - apply toy_reachable. lia.
  - unfold toy_eax_used. apply reach_Seal, toy_reachable. lia.
Defined.

Lemma Open_rejects_mismatch_witness :
  @Open toy_block toy_mac (toy_eax 4) (make 16) (make 16) forged []
  = (toy_eax 4, make 16, Ok (Err AuthenticationError)).
Proof.
  apply (@Open_rejects_mismatch toy_block toy_mac 4 (toy_eax 4) (make 16) (make 16) forged []).
  - apply toy_reachable. lia.
  - reflexivity.
  - vm_compute. discriminate.
  - vm_compute. discriminate.
  - vm_compute. discriminate.
Defined.

Lemma Open_short_dst_witness :
  snd (@Open toy_block toy_mac (toy_eax 4) (make 10) (make 16) forged [])
  <> Panic (Msg "dst buffer to small")
  /\ (@auth_tag toy_block toy_mac (make 16) (upto forged (len forged - 4)) [] 4
      <> from forged (len forged - 4) ->
      @Open toy_block toy_mac (toy_eax 4) (make 10) (make 16) forged []
      = (toy_eax 4, make 10, Ok (Err AuthenticationError))).
Proof.
  apply (@Open_short_dst_not_rejected toy_block toy_mac 4 (toy_eax 4) (make 10) (make 16) forged []).
  - apply toy_reachable. lia.
  - reflexivity.
  - vm_compute. discriminate.
  - vm_compute. discriminate.
  - vm_compute. reflexivity.
Defined.

Lemma Open_short_ciphertext_witness :
  @Open toy_block toy_mac (toy_eax 4) (make 16) (make 16) [1; 2; 3] []
  = (toy_eax 4, make 16, Ok (Err AuthenticationError)).
Proof.
  apply (@Open_short_ciphertext toy_block toy_mac 4 (toy_eax 4) (make 16) (make 16) [1; 2; 3] []).
  - apply toy_reachable. lia.
  - reflexivity.
  - vm_compute. reflexivity.
Defined.

End EAXFacts.

(** ** More about [chacha20/chacha] *)

Module ChachaProps.
Import Go Chacha ChachaFacts.

(** *** Little-endian words *)

Lemma le_split_length (n : nat) : forall w, length (le_split n w) = n.
Proof. induction n as [|n IH]; intros w; cbn [le_split length]; auto. Qed.

Lemma le_split_plus (a b : nat) : forall w,
  le_split (a + b) w = le_split a w ++ le_split b (Z.shiftr w (8 * Z.of_nat a)).
Proof.
  induction a as [|a IH]; intros w.
  - cbn [Nat.add le_split app]. now rewrite Z.shiftr_0_r.
  - cbn [Nat.add le_split app]. rewrite IH, Z.shiftr_shiftr by lia.
    replace (8 + 8 * Z.of_nat a) with (8 * Z.of_nat (S a)) by lia. reflexivity.
Qed.

Lemma lor_low_byte (b x : Z) :
  0 <= b < 256 -> Z.lor b (Z.shiftl x 8) mod 256 = b /\ Z.shiftr (Z.lor b (Z.shiftl x 8)) 8 = x.
Proof.
  intros Hb. split.
  - change 256 with (2 ^ 8). rewrite <- Z.land_ones, Z.land_lor_distr_l by lia.
    rewrite !Z.land_ones, Z.shiftl_mul_pow2, Z.mod_mul, Z.lor_0_r by lia.
    apply Z.mod_small. exact Hb.
  - rewrite Z.shiftr_lor, Z.shiftr_shiftl_l, Z.sub_diag, Z.shiftl_0_r by lia.
    rewrite Z.shiftr_div_pow2, Z.div_small by (change (2 ^ 8) with 256; lia).
    reflexivity.
Qed.

(** Splitting the word a run of bytes holds gives the bytes back, whatever
    follows them. *)
Lemma le_split_le_combine (a : list byte) : forall b,
  Forall EAX.is_byte a -> le_split (length a) (le_combine (a ++ b)) = a.
Proof.
  induction a as [|x a IH]; intros b H; [reflexivity|].
  inversion H as [|? ? Hx Ha]; subst. unfold EAX.is_byte in Hx.
  cbn [app le_combine length le_split].
  destruct (lor_low_byte x (le_combine (a ++ b)) Hx) as [-> ->].
  now rewrite IH.
Qed.

Lemma le_split_mod (n : nat) : forall w,
  le_split n (w mod 2 ^ (8 * Z.of_nat n)) = le_split n w.
Proof.
  induction n as [|n IH]; intros w; [reflexivity|].
  cbn [le_split].
  replace (8 * Z.of_nat (S n)) with (8 + 8 * Z.of_nat n) by lia.
  rewrite Z.pow_add_r by lia. change (2 ^ 8) with 256.
  assert (Hp : 0 < 2 ^ (8 * Z.of_nat n)) by (apply Z.pow_pos_nonneg; lia).
  rewrite Z.rem_mul_r by lia.
  f_equal.
  - rewrite (Z.mul_comm 256), Z.mod_add, Z.mod_mod by lia. reflexivity.
  - rewrite !Z.shiftr_div_pow2 by lia. change (2 ^ 8) with 256.
    rewrite (Z.mul_comm 256), Z.div_add by lia.
    rewrite (Z.div_small (w mod 256)) by (apply Z.mod_pos_bound; lia).
    rewrite Z.add_0_l. apply IH.
Qed.

Lemma le_split_le_combine_all (a : list byte) :
  Forall EAX.is_byte a -> le_split (length a) (le_combine a) = a.
Proof.
  intros H. rewrite <- (app_nil_r a) at 2. now apply le_split_le_combine.
Qed.

(** The word [statePtr[6]] of the one-shot function: the counter in its low
    half, the first four bytes of the nonce in its high half; the bytes 4 to
    7 the 64-bit read took along are shifted out. *)
Lemma counter_word_bytes (x counter : Z) :
  0 <= counter < 2 ^ 32 ->
  le_split 8 (Z.lor (Z.shiftl x 32 mod 2 ^ 64) counter) = le_split 4 counter ++ le_split 4 x.
Proof.
  intros Hc.
  assert (Ha : Z.shiftl x 32 mod 2 ^ 64 = Z.shiftl (x mod 2 ^ 32) 32).
  { rewrite !Z.shiftl_mul_pow2 by lia. change (2 ^ 64) with (2 ^ 32 * 2 ^ 32).
    apply Z.mul_mod_distr_r; lia. }
  rewrite Ha. change 8%nat with (4 + 4)%nat. rewrite le_split_plus. f_equal.
  - rewrite <- le_split_mod. f_equal. change (8 * Z.of_nat 4) with 32.
    rewrite <- Z.land_ones, Z.land_lor_distr_l, !Z.land_ones by lia.
    rewrite Z.shiftl_mul_pow2, Z.mod_mul, Z.lor_0_l by lia.
    apply Z.mod_small. exact Hc.
  - change (8 * Z.of_nat 4) with 32.
    rewrite Z.shiftr_lor, Z.shiftr_shiftl_l, Z.sub_diag, Z.shiftl_0_r by lia.
    rewrite (Z.shiftr_div_pow2 counter), Z.div_small, Z.lor_0_r by lia.
    apply (le_split_mod 4).
Qed.

Lemma put64_at (p old s : list byte) (i v : Z) :
  len p = 8 * i -> length old = 8%nat ->
  put64 (p ++ old ++ s) i v = p ++ le_split 8 v ++ s.
Proof.
  intros Hp Ho. unfold put64. rewrite <- Hp. rewrite EAXFacts.upto_app_l. do 2 f_equal.
  rewrite EAXFacts.from_app_r by lia.
  replace (len p + 8 - len p) with (len old) by (unfold len; lia).
  apply (EAXFacts.from_app_l old s).
Qed.

Lemma sub_bytes (s : list byte) (i j : Z) :
  Forall EAX.is_byte s -> Forall EAX.is_byte (sub s i j).
Proof.
  intros H. unfold sub, upto, from.
  apply EAXFacts.Forall_split. now apply EAXFacts.Forall_split.
Qed.

Lemma sub_length (s : list byte) (i j : Z) :
  0 <= i <= j -> j <= len s -> length (sub s i j) = Z.to_nat (j - i).
Proof.
  intros H1 H2. pose proof (EAXFacts.len_sub s i j H1 H2) as H. unfold len in H. lia.
Qed.

(** *** The state both entry points build *)

(** The writes through [statePtr] lay the state out as the constants, the
    key, the counter as four little-endian bytes and the nonce. *)
Lemma init_state_layout (nonce key : list byte) (counter : Z) :
  length key = 32%nat -> length nonce = 12%nat ->
  Forall EAX.is_byte key -> Forall EAX.is_byte nonce ->
  0 <= counter < 2 ^ 32 ->
  init_state nonce key (Z.lor (Z.shiftl (read64 nonce 0) 32 mod 2 ^ 64) counter)
  = constants ++ key ++ le_split 4 counter ++ nonce.
Proof.
  intros Hk Hn Hkb Hnb Hc. unfold init_state, get64, read64.
  change (copy (make 64) constants)
    with (constants ++ make 8 ++ make 8 ++ make 8 ++ make 8 ++ make 8 ++ make 8 ++ []).
  change (8 * 0 + 8) with 8. change (8 * 0) with 0.
  change (8 * 1 + 8) with 16. change (8 * 1) with 8.
  change (8 * 2 + 8) with 24. change (8 * 2) with 16.
  change (8 * 3 + 8) with 32. change (8 * 3) with 24.
  change (0 + 8) with 8. change (4 + 8) with 12.
  assert (Hlk : len key = 32) by (unfold len; lia).
  assert (Hln : len nonce = 12) by (unfold len; lia).
  set (k0 := sub key 0 8). set (k1 := sub key 8 16).
  set (k2 := sub key 16 24). set (k3 := sub key 24 32).
  set (n0 := sub nonce 0 8). set (n1 := sub nonce 4 12).
  assert (Hsplit : forall l, length l = 8%nat -> Forall EAX.is_byte l ->
                               le_split 8 (le_combine l) = l).
  { intros l Hl Hb. rewrite <- Hl. now apply le_split_le_combine_all. }
  rewrite (put64_at constants) by reflexivity.
  rewrite (app_assoc constants), (put64_at (constants ++ _))
    by (unfold len; rewrite ?length_app, ?le_split_length; reflexivity).
  rewrite (app_assoc (constants ++ _)), (put64_at ((constants ++ _) ++ _))
    by (unfold len; rewrite ?length_app, ?le_split_length; reflexivity).
  rewrite (app_assoc ((constants ++ _) ++ _)), (put64_at (((constants ++ _) ++ _) ++ _))
    by (unfold len; rewrite ?length_app, ?le_split_length; reflexivity).
  rewrite (app_assoc (((constants ++ _) ++ _) ++ _)),
    (put64_at ((((constants ++ _) ++ _) ++ _) ++ _))
    by (unfold len; rewrite ?length_app, ?le_split_length; reflexivity).
  rewrite (app_assoc ((((constants ++ _) ++ _) ++ _) ++ _)),
    (put64_at (((((constants ++ _) ++ _) ++ _) ++ _) ++ _))
    by (unfold len; rewrite ?length_app, ?le_split_length; reflexivity).
  rewrite counter_word_bytes by assumption.
  rewrite !Hsplit
    by (try (unfold k0, k1, k2, k3, n1; apply sub_length; lia);
        unfold k0, k1, k2, k3, n1; now apply sub_bytes).
  assert (Hn0 : le_split 4 (le_combine n0) = sub nonce 0 4).
  { unfold n0. rewrite (EAXFacts.sub_split nonce 0 4 8) by lia.
    replace 4%nat with (length (sub nonce 0 4)) at 1 by (apply sub_length; lia).
    apply le_split_le_combine. now apply sub_bytes. }
  rewrite Hn0, app_nil_r, <- !app_assoc. f_equal.
  assert (Hkey : key = k0 ++ k1 ++ k2 ++ k3).
  { unfold k0, k1, k2, k3.
    rewrite <- (EAXFacts.sub_split key 16 24 32), <- (EAXFacts.sub_split key 8 16 32),
      <- (EAXFacts.sub_split key 0 8 32) by lia.
    unfold sub, from, upto. cbn [Z.to_nat skipn]. symmetry. apply firstn_all2. lia. }
  assert (Hnonce : nonce = sub nonce 0 4 ++ n1).
  { unfold n1. rewrite <- (EAXFacts.sub_split nonce 0 4 12) by lia.
    unfold sub, from, upto. cbn [Z.to_nat skipn]. symmetry. apply firstn_all2. lia. }
  transitivity ((k0 ++ k1 ++ k2 ++ k3) ++ le_split 4 counter ++ (sub nonce 0 4 ++ n1)).
  - now rewrite <- !app_assoc.
  - now rewrite <- Hkey, <- Hnonce.
Qed.

Lemma bytes_checked (l : list byte) :
  forallb (fun b => (0 <=? b) && (b <? 256)) l = true -> Forall EAX.is_byte l.
Proof.
  intros H. apply Forall_forall. intros b Hb.
  apply (proj1 (forallb_forall _ l) H) in Hb. apply andb_prop in Hb.
  unfold EAX.is_byte. lia.
Qed.

(** X1. For a key of 32 bytes and a nonce of 12, the state the one-shot
    [XORKeyStream] builds through its 64-bit writes is the constants, the
    key, the counter as four little-endian bytes and the nonce, and the
    state of the cipher [NewCipher] makes is that state with counter 0, its
    offset 0. *)
Theorem state_layout (dst src nonce key : list byte) (counter rounds : Z) (K : nat) :
  length key = 32%nat -> length nonce = 12%nat ->
  Forall EAX.is_byte key -> Forall EAX.is_byte nonce ->
  0 <= counter < 2 ^ 32 ->
  0 < rounds -> Z.even rounds = true ->
  (length src <= length dst)%nat -> (length src <= 64 * K)%nat ->
  XORKeyStream dst src nonce key counter rounds
  = Ok (xor_bytes src
          (keystream K (constants ++ key ++ le_split 4 counter ++ nonce) rounds)
        ++ from dst (len src))
  /\ NewCipher nonce key rounds
     = Ok {| state := constants ++ key ++ [0; 0; 0; 0] ++ nonce;
             block := make 64;
             off := 0;
             Chacha.rounds := rounds |}.
Proof.
  intros Hk Hn Hkb Hnb Hc Hr He Hd HK. split.
  - rewrite (XORKeyStream_spec dst src nonce key counter rounds K) by assumption.
    rewrite init_state_layout by assumption.
    unfold from, len. now rewrite Nat2Z.id.
  - unfold NewCipher. rewrite rounds_ok by assumption.
    rewrite <- (Z.lor_0_r (Z.shiftl (read64 nonce 0) 32 mod 2 ^ 64)).
    rewrite init_state_layout by (assumption || lia). reflexivity.
Qed.

Lemma state_layout_witness :
  XORKeyStream (make 70) (make 70) (make 12) (make 32) 7 20
  = Ok (xor_bytes (make 70)
          (keystream 2 (constants ++ make 32 ++ le_split 4 7 ++ make 12) 20)
        ++ from (make 70) (len (make 70)))
  /\ NewCipher (make 12) (make 32) 20
     = Ok {| state := constants ++ make 32 ++ [0; 0; 0; 0] ++ make 12;
             block := make 64;
             off := 0;
             Chacha.rounds := 20 |}.
Proof.
  apply (state_layout (make 70) (make 70) (make 12) (make 32) 7 20 2).
  - reflexivity.
  - reflexivity.
  - apply bytes_checked. reflexivity.
  - apply bytes_checked. reflexivity.
  - lia.
  - lia.
  - reflexivity.
  - vm_compute. lia.
  - vm_compute. lia.
Defined.

(** *** The one-shot [XORKeyStream] *)

(** X2. The one-shot [XORKeyStream] panics for a [dst] shorter than [src],
    whatever the round count; otherwise it panics for a round count that is
    not positive or not even; otherwise it returns, with [dst] as long as
    it was and unchanged from [len(src)] on. *)
Theorem XORKeyStream_outcome (dst src nonce key : list byte) (counter rounds : Z) :
  (len dst < len src ->
   XORKeyStream dst src nonce key counter rounds
   = Panic (Msg "chacha20/chacha: dst buffer is to small"))
  /\ (len src <= len dst -> rounds <= 0 \/ Z.odd rounds = true ->
      XORKeyStream dst src nonce key counter rounds
      = Panic (Msg "chacha20/chacha: rounds must be a multiple of 2"))
  /\ (len src <= len dst -> 0 < rounds -> Z.even rounds = true ->
      exists out,
        XORKeyStream dst src nonce key counter rounds = Ok out
        /\ len out = len dst
        /\ from out (len src) = from dst (len src)).
Proof.
  split; [|split].
  - intros H. unfold XORKeyStream.
    destruct (len dst <? len src) eqn:E; [reflexivity|lia].
  - intros H Hr. unfold XORKeyStream.
    destruct (len dst <? len src) eqn:E; [lia|].
    assert (Hb : (rounds <=? 0) || negb (Z.rem rounds 2 =? 0) = true).
    { destruct (rounds <=? 0) eqn:E0; [reflexivity|]. cbn [orb].
      destruct Hr as [Hr|Hr]; [lia|].
      rewrite Z.rem_mod_nonneg, Zmod_odd, Hr by lia. reflexivity. }
    now rewrite Hb.
  - intros H Hr He. unfold len in H.
    rewrite (XORKeyStream_spec dst src nonce key counter rounds (length src))
      by (assumption || lia).
    eexists. split; [reflexivity|].
    set (x := xor_bytes src _).
    assert (Hx : length x = length src).
    { unfold x. rewrite xor_bytes_length, keystream_length. lia. }
    split.
    + unfold len. rewrite length_app, length_skipn. lia.
    + unfold from, len. rewrite Nat2Z.id, skipn_app, Hx, Nat.sub_diag, skipn_all2 by lia.
      reflexivity.
Qed.

Lemma XORKeyStream_outcome_witness :
  XORKeyStream (make 3) (make 5) (make 12) (make 32) 0 7
  = Panic (Msg "chacha20/chacha: dst buffer is to small")
  /\ XORKeyStream (make 5) (make 5) (make 12) (make 32) 0 7
     = Panic (Msg "chacha20/chacha: rounds must be a multiple of 2")
  /\ exists out,
       XORKeyStream (make 9) (make 5) (make 12) (make 32) 0 8 = Ok out
       /\ len out = len (make 9)
       /\ from out (len (make 5)) = from (make 9) (len (make 5)).
Proof.
  split; [|split].
  - apply (XORKeyStream_outcome (make 3) (make 5) (make 12) (make 32) 0 7).
    vm_compute. reflexivity.
  - apply (XORKeyStream_outcome (make 5) (make 5) (make 12) (make 32) 0 7).
    + vm_compute. discriminate.
    + right. reflexivity.
  - apply (XORKeyStream_outcome (make 9) (make 5) (make 12) (make 32) 0 8).
    + vm_compute. discriminate.
    + lia.
    + reflexivity.
Defined.

(** X3. The one-shot [XORKeyStream] undoes itself: run on its own output
    with the same key, nonce, counter and round count, it gives the source
    back. *)
Theorem XORKeyStream_involution (dst dst' src nonce key : list byte) (counter rounds : Z) :
  0 < rounds -> Z.even rounds = true ->
  len src <= len dst -> len src <= len dst' ->
  exists out out',
    XORKeyStream dst src nonce key counter rounds = Ok out
    /\ XORKeyStream dst' (upto out (len src)) nonce key counter rounds = Ok out'
    /\ upto out' (len src) = src.
Proof.
  intros Hr He Hd Hd'. unfold len in Hd, Hd'.
  set (st := init_state nonce key (Z.lor (Z.shiftl (read64 nonce 0) 32 mod 2 ^ 64) counter)).
  set (ks := keystream (length src) st rounds).
  assert (Hks : length ks = (64 * length src)%nat) by apply keystream_length.
  assert (Hx : length (xor_bytes src ks) = length src).
  { rewrite xor_bytes_length. lia. }
  assert (Hup : forall y z : list byte,
             length y = length src -> upto (y ++ z) (len src) = y).
  { intros y z Hy. unfold upto, len.
    rewrite Nat2Z.id, firstn_app, Hy, Nat.sub_diag, firstn_all2 by lia.
    cbn [firstn]. apply app_nil_r. }
  exists (xor_bytes src ks ++ skipn (length src) dst).
  exists (xor_bytes (xor_bytes src ks) ks ++ skipn (length (xor_bytes src ks)) dst').
  split; [|split].
  - apply XORKeyStream_spec; assumption || lia.
  - rewrite Hup by assumption.
    rewrite (XORKeyStream_spec dst' (xor_bytes src ks) nonce key counter rounds (length src))
      by (assumption || lia).
    reflexivity.
  - rewrite Hup by (rewrite xor_bytes_length; lia).
    apply EAXFacts.xor_bytes_involutive. unfold len. lia.
Qed.

Lemma XORKeyStream_involution_witness :
  exists out out',
    XORKeyStream (make 70) (EAX.count_up 70) (make 12) (make 32) 5 20 = Ok out
    /\ XORKeyStream (make 80) (upto out (len (EAX.count_up 70))) (make 12) (make 32) 5 20
       = Ok out'
    /\ upto out' (len (EAX.count_up 70)) = EAX.count_up 70.
Proof.
  apply (XORKeyStream_involution (make 70) (make 80) (EAX.count_up 70) (make 12) (make 32) 5 20).
  - lia.
  - reflexivity.
  - vm_compute. discriminate.
  - vm_compute. discriminate.
Defined.

(** *** The resumable cipher *)

(** X4. On a cipher reached through [NewCipher] and calls,
    [Cipher.XORKeyStream] panics for a [dst] shorter than [src] and leaves
    the cipher as it was; for every other [dst] it returns, whatever the
    offset the earlier calls left: [dst] keeps its length and is unchanged
    from [len(src)] on, and the round count of the cipher stays. *)
Theorem Cipher_XORKeyStream_outcome (c : Cipher) (dst src : list byte) :
  reachable c ->
  (len dst < len src ->
   Cipher_XORKeyStream c dst src
   = (c, Panic (Msg "chacha20/chacha: dst buffer is to small")))
  /\ (len src <= len dst ->
      exists c' out,
        Cipher_XORKeyStream c dst src = (c', Ok out)
        /\ len out = len dst
        /\ from out (len src) = from dst (len src)
        /\ rounds c' = rounds c).
Proof.
  intros Hc. split.
  - intros H. unfold Cipher_XORKeyStream.
    destruct (len dst <? len src) eqn:E; [reflexivity|lia].
  - intros H. unfold len in H.
    destruct (reachable_aligned c Hc) as (st0 & r & q & Hal).
    destruct (call_spec st0 r c q dst src (position c q + length src) Hal)
      as (c' & q' & Hcall & Hal' & _); try lia.
    exists c'. eexists. split; [exact Hcall|].
    set (x := xor_bytes src _).
    assert (Hx : length x = length src).
    { unfold x. rewrite xor_bytes_length, length_skipn, keystream_length. lia. }
    split; [|split].
    + unfold len. rewrite length_app, length_skipn. lia.
    + unfold from, len. rewrite Nat2Z.id, skipn_app, Hx, Nat.sub_diag, skipn_all2 by lia.
      reflexivity.
    + destruct Hal as (Hr & _), Hal' as (Hr' & _). congruence.
Qed.

Lemma Cipher_XORKeyStream_outcome_witness :
  Cipher_XORKeyStream ten_then_fifty_four (make 3) (make 5)
  = (ten_then_fifty_four, Panic (Msg "chacha20/chacha: dst buffer is to small"))
  /\ exists c' out,
       Cipher_XORKeyStream ten_then_fifty_four (make 9) (make 5) = (c', Ok out)
       /\ len out = len (make 9)
       /\ from out (len (make 5)) = from (make 9) (len (make 5))
       /\ rounds c' = rounds ten_then_fifty_four.
Proof.
  assert (H : reachable ten_then_fifty_four).
  { unfold ten_then_fifty_four. apply reach_call, reach_call.
    apply (reach_new (make 12) (make 32) 20). reflexivity. }
  split.
  - apply (Cipher_XORKeyStream_outcome ten_then_fifty_four (make 3) (make 5) H).
    vm_compute. reflexivity.
  - apply (Cipher_XORKeyStream_outcome ten_then_fifty_four (make 9) (make 5) H).
    vm_compute. discriminate.
Defined.

(** X5. On a cipher reached through [NewCipher] and calls, a call of
    [Cipher.XORKeyStream] with an empty [src] changes nothing: the cipher,
    its offset included, and [dst] are as before. *)
Theorem Cipher_XORKeyStream_empty (c : Cipher) (dst : list byte) :
  reachable c -> Cipher_XORKeyStream c dst [] = (c, Ok dst).
Proof.
  intros _. destruct c as [st blk o r].
  unfold Cipher_XORKeyStream. cbn [state block off rounds].
  change (len (@nil byte)) with 0.
  pose proof (len_nonneg dst) as Hd.
  destruct (len dst <? 0) eqn:E; [lia|].
  destruct (0 <? o) eqn:Eo.
  - unfold XOR. change (len (@nil byte)) with 0.
    assert (Hm : Z.min 0 (len (from blk o)) = 0)
      by (pose proof (len_nonneg (from blk o)); lia).
    rewrite Hm, E. cbn [xor_bytes app]. change (from dst 0) with dst.
    cbn [Z.eqb]. now rewrite Z.add_0_r.
  - unfold xor_rest. cbn [state block off rounds].
    change (len (@nil byte)) with 0. reflexivity.
Qed.

Lemma Cipher_XORKeyStream_empty_witness :
  Cipher_XORKeyStream ten_then_fifty_four (make 4) [] = (ten_then_fifty_four, Ok (make 4)).
Proof.
  apply (Cipher_XORKeyStream_empty ten_then_fifty_four (make 4)).
  unfold ten_then_fifty_four. apply reach_call, reach_call.
  apply (reach_new (make 12) (make 32) 20). reflexivity.
Defined.

(** X6. What a cipher made by [NewCipher] produced from a message cut
    into chunks one way, a cipher made from the same key, nonce and round
    count turns back into the message, however the ciphertext is cut into
    chunks. *)
Theorem stream_round_trip (nonce key : list byte) (rounds : Z) (c : Cipher)
    (calls calls' : list (list byte * list byte)) (ct : list byte) :
  NewCipher nonce key rounds = Ok c ->
  Forall fits calls -> Forall fits calls' ->
  feed c calls = Ok ct ->
  concat (map snd calls') = ct ->
  feed c calls' = Ok (concat (map snd calls)).
Proof.
  intros Hnew Hf Hf' Hfeed Hct.
  pose proof (NewCipher_aligned _ _ _ _ Hnew) as Hal.
  set (st0 := init_state _ _ _) in Hal.
  assert (Hp : position c 0 = 0%nat).
  { unfold NewCipher in Hnew.
    destruct ((rounds <=? 0) || negb (Z.rem rounds 2 =? 0)); [discriminate|].
    injection Hnew as <-. reflexivity. }
  set (src := concat (map snd calls)) in *.
  set (K := length src).
  assert (Hks : length (keystream K st0 rounds) = (64 * K)%nat) by apply keystream_length.
  rewrite (feed_spec st0 rounds K calls c 0%nat Hal Hf) in Hfeed by (fold src; lia).
  rewrite Hp in Hfeed. cbn [skipn] in Hfeed. injection Hfeed as Hfeed.
  fold src in Hfeed.
  assert (Hl : length ct = length src).
  { rewrite <- Hfeed, xor_bytes_length, Hks. unfold K. lia. }
  rewrite (feed_spec st0 rounds K calls' c 0%nat Hal Hf') by (rewrite Hct, Hp, Hl; unfold K; lia).
  rewrite Hp, Hct, <- Hfeed. cbn [skipn]. f_equal.
  apply EAXFacts.xor_bytes_involutive. unfold len. rewrite Hks. unfold K. lia.
Qed.

Lemma stream_round_trip_witness :
  feed zero_cipher two_calls_back = Ok (concat (map snd three_calls)).
Proof.
  apply (stream_round_trip (make 12) (make 32) 20 zero_cipher
           three_calls two_calls_back three_calls_output).
  - reflexivity.
  - repeat constructor; vm_compute; discriminate.
  - repeat constructor; vm_compute; discriminate.
  - vm_compute. reflexivity.
  - vm_compute. reflexivity.
Defined.

Lemma rounds_checked (rounds : Z) :
  (rounds <=? 0) || negb (Z.rem rounds 2 =? 0) = false ->
  0 < rounds /\ Z.even rounds = true.
Proof.
  intros H. apply orb_false_elim in H. destruct H as [H1 H2].
  assert (Hp : 0 < rounds) by lia. split; [assumption|].
  apply negb_false_iff, Z.eqb_eq in H2.
  rewrite Z.rem_mod_nonneg, Zmod_even in H2 by lia.
  destruct (Z.even rounds); [reflexivity|discriminate].
Qed.

(** X7. A cipher made by [NewCipher], fed a message in chunks, produces
    what the one-shot [XORKeyStream] produces for the whole message with
    the same key, nonce and round count and the counter 0. *)
Theorem stream_matches_one_shot (nonce key : list byte) (rounds : Z) (c : Cipher)
    (calls : list (list byte * list byte)) (dst : list byte) :
  NewCipher nonce key rounds = Ok c ->
  Forall fits calls ->
  len (concat (map snd calls)) <= len dst ->
  exists ct,
    feed c calls = Ok ct
    /\ XORKeyStream dst (concat (map snd calls)) nonce key 0 rounds
       = Ok (ct ++ from dst (len (concat (map snd calls)))).
Proof.
  intros Hnew Hf Hd.
  pose proof (NewCipher_aligned _ _ _ _ Hnew) as Hal.
  assert (Hp : position c 0 = 0%nat /\ 0 < rounds /\ Z.even rounds = true).
  { unfold NewCipher in Hnew.
    destruct ((rounds <=? 0) || negb (Z.rem rounds 2 =? 0)) eqn:E; [discriminate|].
    injection Hnew as <-. split; [reflexivity|now apply rounds_checked]. }
  destruct Hp as (Hp & Hr & He).
  set (src := concat (map snd calls)) in *.
  eexists. split.
  - rewrite (feed_spec _ rounds (length src) calls c 0%nat Hal Hf) by (fold src; lia).
    rewrite Hp. cbn [skipn]. reflexivity.
  - unfold len in Hd.
    rewrite (XORKeyStream_spec dst src nonce key 0 rounds (length src))
      by (assumption || lia).
    rewrite Z.lor_0_r. unfold from, len. now rewrite Nat2Z.id.
Qed.

Lemma stream_matches_one_shot_witness :
  exists ct,
    feed zero_cipher three_calls = Ok ct
    /\ XORKeyStream (make 90) (concat (map snd three_calls)) (make 12) (make 32) 0 20
       = Ok (ct ++ from (make 90) (len (concat (map snd three_calls)))).
Proof.
  apply (stream_matches_one_shot (make 12) (make 32) 20 zero_cipher three_calls (make 90)).
  - reflexivity.
  - repeat constructor; vm_compute; discriminate.
  - vm_compute. discriminate.
Defined.

End ChachaProps.

(** ** More of the EAX mode *)

Module EAXProps.
Import Go EAX EAXFacts.

(** *** The mask of [ctrCrypt] below three blocks *)

Lemma testbit_ge (n i : Z) : 0 <= i -> 0 <= n -> Z.testbit n i = true -> 2 ^ i <= n.
Proof.
  intros Hi Hn H. destruct (Z_lt_le_dec n (2 ^ i)) as [Hlt|]; [|assumption].
  apply Z.testbit_true in H; [|assumption].
  rewrite Z.div_small in H by lia. discriminate.
Qed.

Lemma testbit_below (n i : Z) : 0 <= i -> 0 <= n < 2 ^ i -> Z.testbit n i = false.
Proof.
  intros Hi Hn. apply Z.testbit_false; [assumption|].
  now rewrite Z.div_small.
Qed.

Lemma testbit_top (n i : Z) : 0 <= i -> 2 ^ i <= n < 2 ^ (i + 1) -> Z.testbit n i = true.
Proof.
  intros Hi Hn. apply Z.testbit_true; [assumption|].
  assert (Hp : 0 < 2 ^ i) by (apply Z.pow_pos_nonneg; lia).
  change (i + 1) with (Z.succ i) in Hn. rewrite Z.pow_succ_r in Hn by assumption.
  replace (n / 2 ^ i) with 1; [reflexivity|].
  apply (Z.div_unique n (2 ^ i) 1 (n - 2 ^ i)); lia.
Qed.

(** Below three blocks the mask is the full blocks of the length: at most
    one block is left for the tail. *)
Lemma mask_tail_short (k l : Z) :
  0 <= k -> 0 <= l < 3 * 2 ^ k ->
  l - Z.land l (Z.lnot (l - 2 ^ k)) <= 2 ^ k.
Proof.
  intros Hk Hl. set (n := Z.land l (Z.lnot (l - 2 ^ k))).
  assert (Hp : 0 < 2 ^ k) by (apply Z.pow_pos_nonneg; lia).
  assert (Hn : 0 <= n) by (apply Z.land_nonneg; left; lia).
  assert (H2 : 2 ^ (k + 1) = 2 * 2 ^ k) by (apply Z.pow_succ_r; assumption).
  assert (H4 : 2 ^ (k + 1 + 1) = 2 * 2 ^ (k + 1)) by (apply Z.pow_succ_r; lia).
  destruct (Z_lt_le_dec l (2 ^ k)) as [H1|H1]; [lia|].
  destruct (Z_lt_le_dec l (2 ^ (k + 1))) as [H3|H3].
  - assert (Hb : Z.testbit n k = true).
    { unfold n. rewrite Z.land_spec, Z.lnot_spec by assumption.
      rewrite (testbit_top l k), (testbit_below (l - 2 ^ k) k) by lia. reflexivity. }
    apply testbit_ge in Hb; lia.
  - assert (Hb : Z.testbit n (k + 1) = true).
    { unfold n. rewrite Z.land_spec, Z.lnot_spec by lia.
      rewrite (testbit_top l (k + 1)), (testbit_below (l - 2 ^ k) (k + 1)) by lia.
      reflexivity. }
    apply testbit_ge in Hb; lia.
Qed.

Section WithCipher.
Context {B : Block} {M : CMac B}.

Lemma ctr_stream_plus (j k : nat) : forall s,
  ctr_stream (j + k) s = ctr_stream j s ++ ctr_stream k (ctr_adv j s).
Proof.
  induction j as [|j IH]; intros s; [reflexivity|].
  cbn [Nat.add ctr_stream ctr_adv]. now rewrite IH, app_assoc.
Qed.

(** Only the blocks of the keystream that the data reaches count. *)
Lemma xor_bytes_stream_more (a s : list byte) (j k : nat) :
  len s = BlockSize -> len a <= BlockSize * Z.of_nat j -> (j <= k)%nat ->
  xor_bytes a (ctr_stream k s) = xor_bytes a (ctr_stream j s).
Proof.
  intros Hs Ha Hjk. replace k with (j + (k - j))%nat by lia.
  rewrite ctr_stream_plus. apply ChachaFacts.xor_bytes_short.
  pose proof (ctr_stream_len j s Hs) as Hl. unfold len in *. lia.
Qed.

Lemma auth_tag_len (nonce body additionalData : list byte) (tagsize : Z) :
  1 <= tagsize <= BlockSize -> len (auth_tag nonce body additionalData tagsize) = tagsize.
Proof.
  intros H. unfold auth_tag. apply len_upto. rewrite !len_xor_bytes, !digest_len. lia.
Qed.

Lemma ctrCrypt_nil (c : eaxCipher) (dst : list byte) : ctrCrypt c dst [] = (c, dst, Ok tt).
Proof.
  unfold ctrCrypt. change (len (@nil byte)) with 0. rewrite Z.land_0_l. reflexivity.
Qed.

(** Below three blocks [ctrCrypt] is the counter mode over the whole of
    [src]. *)
Lemma ctrCrypt_below_three (c : eaxCipher) (dst src : list byte) :
  power_of_two BlockSize ->
  len src <= len dst -> len (ctr c) = BlockSize ->
  len src < 3 * BlockSize ->
  exists c',
    ctrCrypt c dst src
    = (c', xor_bytes src (ctr_stream 3 (ctr c)) ++ from dst (len src), Ok tt).
Proof.
  intros Hpow Hd Hc H3.
  destruct (ctrCrypt_spec c dst src Hpow Hd Hc) as (c' & Heq). cbv zeta in Heq.
  exists c'. rewrite Heq. clear Heq.
  pose proof (ChachaFacts.len_nonneg src) as Hs.
  pose proof BlockSize_pos as Hpos.
  destruct Hpow as (k & Hk & Hbs).
  destruct (mask_multiple k (len src) Hk Hs) as (b & Hb & Hn & Hle).
  pose proof (mask_tail_short k (len src) Hk ltac:(lia)) as Ht.
  rewrite <- Hbs in Hn, Hle, Ht.
  set (n := Z.land (len src) (Z.lnot (len src - BlockSize))) in *.
  replace (n + Z.min (len src - n) BlockSize) with (len src) by lia.
  rewrite (upto_all src) by lia.
  replace (n / BlockSize) with b by (rewrite Hn, Z.mul_comm, Z.div_mul; lia).
  assert (Hb2 : b <= 2) by nia.
  f_equal. f_equal. f_equal. symmetry.
  apply xor_bytes_stream_more; [assumption|nia|lia].
Qed.

(** *** The counter register *)

(** X8. The increment of [ctrCrypt] adds one to the counter register read
    as a big-endian number, modulo 256 to the power of its length, so the
    register of all 255 wraps to all zeros; the register keeps its length
    and holds bytes. *)
Theorem counter_increment (l : list byte) :
  Forall is_byte l ->
  len (increment (length l) l) = len l
  /\ Forall is_byte (increment (length l) l)
  /\ be_value (increment (length l) l) = (be_value l + 1) mod 256 ^ len l.
Proof.
  intros H.
  destruct (increment_spec (length l) l H (le_n _)) as (p & Heq & Hlen & Hb & Hv).
  rewrite skipn_all, app_nil_r in Heq. rewrite firstn_all in Hv. rewrite Heq.
  split; [unfold len; now rewrite Hlen|]. split; [assumption|exact Hv].
Qed.

(** *** The counter mode core *)

(** X9. For a block size that is a power of two and a [dst] as long as
    [src], [ctrCrypt] returns; it XORs the first [m] bytes of [src] with
    the keystream of the counter register and leaves [dst] from [m] on as
    it was, where [m] is the mask [n] of the code plus the tail of at most
    one block.  [m] never exceeds [len(src)], and below three blocks it is
    [len(src)]: [dst[:len(src)]] is then [src] XORed with the keystream. *)
Theorem ctrCrypt_counter_mode (c : eaxCipher) (dst src : list byte) :
  power_of_two BlockSize ->
  len src <= len dst -> len (ctr c) = BlockSize ->
  let n := Z.land (len src) (Z.lnot (len src - BlockSize)) in
  let m := n + Z.min (len src - n) BlockSize in
  0 <= m <= len src
  /\ (exists c',
        ctrCrypt c dst src
        = (c',
           xor_bytes (upto src m) (ctr_stream (S (Z.to_nat (n / BlockSize))) (ctr c))
           ++ from dst m,
           Ok tt))
  /\ (len src < 3 * BlockSize ->
      exists c',
        ctrCrypt c dst src
        = (c', xor_bytes src (ctr_stream 3 (ctr c)) ++ from dst (len src), Ok tt)).
Proof.
  intros Hpow Hd Hc n m. split; [|split].
  - pose proof (ChachaFacts.len_nonneg src) as Hs.
    pose proof BlockSize_pos as Hpos.
    destruct Hpow as (k & Hk & Hbs).
    destruct (mask_multiple k (len src) Hk Hs) as (b & Hb & Hn & Hle).
    rewrite <- Hbs in Hn, Hle. fold n in Hn.
    assert (0 <= n) by nia. unfold m. lia.
  - exact (ctrCrypt_spec c dst src Hpow Hd Hc).
  - now apply ctrCrypt_below_three.
Qed.

(** X10. Whatever the block size and the lengths, [ctrCrypt] leaves [dst]
    its length, the counter register its length, and the MAC state and the
    tag size of the cipher as they were; the one panic it can raise is the
    out-of-range panic of slicing. *)
Theorem ctrCrypt_keeps (c : eaxCipher) (dst src : list byte) :
  let c' := fst (fst (ctrCrypt c dst src)) in
  len (snd (fst (ctrCrypt c dst src))) = len dst
  /\ len (ctr c') = len (ctr c) /\ mac c' = mac c /\ size c' = size c
  /\ (snd (ctrCrypt c dst src) = Ok tt \/ snd (ctrCrypt c dst src) = Panic OutOfRange).
Proof.
  cbv zeta. split; [apply ctrCrypt_len|].
  destruct (ctrCrypt_frame c dst src) as (H1 & H2 & H3).
  repeat split; try assumption. apply ctrCrypt_panic.
Qed.

(** *** [Seal] *)


(** X11. [Seal] checks the nonce first: a nonce whose length is not
    [NonceSize()] makes it panic with the [NonceSizeError] of that length,
    whatever [dst] is.  Then it panics for a [dst] shorter than the
    plaintext.  Neither panic changes the cipher.  Otherwise, the block
    size a power of two, it returns [len(plaintext) + Overhead()] bytes,
    [Overhead()] being the tag size the cipher was made with. *)
Theorem Seal_outcome_cases (tagsize : Z) (c : eaxCipher)
    (dst nonce plaintext additionalData : list byte) :
  reachable tagsize c ->
  (len nonce <> NonceSize c ->
   Seal c dst nonce plaintext additionalData
   = (c, Panic (ErrorValue (NonceSizeError (len nonce)))))
  /\ (len nonce = NonceSize c -> len dst < len plaintext ->
      Seal c dst nonce plaintext additionalData = (c, Panic (Msg "dst buffer to small")))
  /\ (len nonce = NonceSize c -> len plaintext <= len dst -> power_of_two BlockSize ->
      exists c' out,
        Seal c dst nonce plaintext additionalData = (c', Ok out)
        /\ len out = len plaintext + Overhead c
        /\ Overhead c = tagsize).
Proof.
  intros Hr. destruct (reachable_idle tagsize c Hr) as [Hi Hs].
  unfold NonceSize, Overhead. split; [|split].
  - intros Hn. unfold Seal.
    destruct (len nonce =? BlockSize) eqn:E; [lia|reflexivity].
  - intros Hn Hd. unfold Seal. rewrite Hn, Z.eqb_refl. cbn [negb].
    destruct (len dst <? len plaintext) eqn:E; [reflexivity|lia].
  - intros Hn Hd Hpow.
    destruct (Seal_spec c dst nonce plaintext additionalData Hpow Hi Hn Hd)
      as (c' & Heq & Hl).
    cbv zeta in Heq, Hl. eexists. eexists. split; [exact Heq|].
    split; [|exact Hs].
    rewrite len_app, Hl, auth_tag_len; [reflexivity|].
    destruct Hi as (_ & _ & Hsz). exact Hsz.
Qed.

(** X12. For a plaintext shorter than three blocks, the block size a
    power of two, what [Seal] returns is the plaintext XORed with the
    counter-mode keystream that starts at the MAC of the nonce, followed by
    the tag over that body: it depends on neither the contents of [dst] nor
    the history of the cipher. *)
Theorem Seal_below_three_blocks (tagsize : Z) (c : eaxCipher)
    (dst nonce plaintext additionalData : list byte) :
  power_of_two BlockSize ->
  reachable tagsize c ->
  len nonce = BlockSize -> len plaintext <= len dst ->
  len plaintext < 3 * BlockSize ->
  let body := xor_bytes plaintext (ctr_stream 3 (digest (prefix nTag ++ nonce))) in
  exists c',
    Seal c dst nonce plaintext additionalData
    = (c', Ok (body ++ auth_tag nonce body additionalData tagsize)).
Proof.
  intros Hpow Hr Hn Hd H3 body. destruct (reachable_idle tagsize c Hr) as [Hi Hs].
  destruct (Seal_spec c dst nonce plaintext additionalData Hpow Hi Hn Hd)
    as (c' & Heq & _).
  cbv zeta in Heq. exists c'. rewrite Heq, Hs.
  assert (Hb : ctr_body c dst nonce plaintext = body).
  { unfold ctr_body.
    destruct (ctrCrypt_below_three (with_ctr c (digest (prefix nTag ++ nonce)))
                dst plaintext Hpow Hd) as (c2 & Hc2);
      [cbn; apply digest_len | assumption |].
    rewrite Hc2. cbn [fst snd ctr with_ctr]. fold body.
    pose proof (ChachaFacts.len_nonneg plaintext) as Hp0.
    pose proof BlockSize_pos as Hpos.
    assert (Hl : len body = len plaintext).
    { unfold body. rewrite len_xor_bytes, ctr_stream_len by apply digest_len. lia. }
    rewrite <- Hl. apply upto_app_l. }
  now rewrite Hb.
Qed.

Lemma upto_app_r (p q : list byte) (j : Z) :
  len p <= j -> upto (p ++ q) j = p ++ upto q (j - len p).
Proof.
  intros H. unfold upto, len in *. rewrite firstn_app, firstn_all2 by lia.
  do 2 f_equal. lia.
Qed.

(** What [ctrCrypt] leaves as the body of [Seal], written out: the first
    [m] bytes are in counter mode, the rest is what [dst] held. *)
Lemma ctr_body_spec (c : eaxCipher) (dst nonce plaintext : list byte) :
  power_of_two BlockSize ->
  len plaintext <= len dst ->
  let n := Z.land (len plaintext) (Z.lnot (len plaintext - BlockSize)) in
  let m := n + Z.min (len plaintext - n) BlockSize in
  ctr_body c dst nonce plaintext
  = xor_bytes (upto plaintext m)
      (ctr_stream (S (Z.to_nat (n / BlockSize))) (digest (prefix nTag ++ nonce)))
    ++ sub dst m (len plaintext).
Proof.
  intros Hpow Hd n m. unfold ctr_body.
  destruct (ctrCrypt_spec (with_ctr c (digest (prefix nTag ++ nonce))) dst plaintext Hpow Hd)
    as (c' & Heq); [cbn; apply digest_len|].
  cbv zeta in Heq. fold n in Heq. fold m in Heq. cbn [ctr with_ctr] in Heq.
  rewrite Heq. cbn [fst snd].
  pose proof (ChachaFacts.len_nonneg plaintext) as Hs.
  pose proof BlockSize_pos as Hpos.
  assert (Hm : 0 <= m <= len plaintext /\ m <= BlockSize * (n / BlockSize + 1)
               /\ 0 <= n / BlockSize).
  { destruct Hpow as (k & Hk & Hbs).
    destruct (mask_multiple k (len plaintext) Hk Hs) as (b & Hb & Hn & Hle).
    rewrite <- Hbs in Hn, Hle. fold n in Hn.
    replace (n / BlockSize) with b by (rewrite Hn, Z.mul_comm, Z.div_mul; lia).
    unfold m. nia. }
  set (ks := ctr_stream (S (Z.to_nat (n / BlockSize))) (digest (prefix nTag ++ nonce))).
  assert (Hks : len ks = BlockSize * Z.of_nat (S (Z.to_nat (n / BlockSize))))
    by (apply ctr_stream_len, digest_len).
  set (x := xor_bytes (upto plaintext m) ks).
  assert (Hx : len x = m).
  { unfold x. rewrite len_xor_bytes, len_upto by lia. lia. }
  rewrite upto_app_r, Hx by lia. reflexivity.
Qed.

(** C4. For a valid [Seal] call, the block size a power of two, the
    returned value is [len(plaintext)] bytes followed by the tag.  Of
    those bytes the first [m] are the plaintext XORed with the counter-mode
    keystream that starts at the MAC of the nonce, the others are what
    [dst] held at their place; [m] comes from the mask of [ctrCrypt].  The
    tag is the XOR of the MAC of those bytes, the MAC of the associated
    data and the MAC of the nonce, cut to the tag size, each MAC taken
    over a block of zeros whose last byte is 2, 1 and 0, followed by the
    payload.  Below three blocks the bytes are the ciphertext.  At three
    blocks of 16 bytes the last 16 are what [dst] held: the returned value
    is then not the ciphertext followed by its tag, unless [dst] held the
    ciphertext before the call. *)
Theorem Seal_ciphertext_and_tag (tagsize : Z) (c : eaxCipher)
    (dst nonce plaintext additionalData : list byte) :
  power_of_two BlockSize ->
  reachable tagsize c ->
  len nonce = BlockSize -> len plaintext <= len dst ->
  let zeros := make (BlockSize - 1) in
  let authNonce := digest ((zeros ++ [0]) ++ nonce) in
  let authData := digest ((zeros ++ [1]) ++ additionalData) in
  let n := Z.land (len plaintext) (Z.lnot (len plaintext - BlockSize)) in
  let m := n + Z.min (len plaintext - n) BlockSize in
  let body :=
    xor_bytes (upto plaintext m) (ctr_stream (S (Z.to_nat (n / BlockSize))) authNonce)
    ++ sub dst m (len plaintext) in
  let ciphertext := xor_bytes plaintext (ctr_stream 3 authNonce) in
  let tag :=
    upto (xor_bytes (digest ((zeros ++ [2]) ++ body)) (xor_bytes authData authNonce))
         tagsize in
  (exists c1, Seal c dst nonce plaintext additionalData = (c1, Ok (body ++ tag)))
  /\ len body = len plaintext
  /\ len tag = tagsize
  /\ (len plaintext < 3 * BlockSize -> body = ciphertext)
  /\ (BlockSize = 16 -> len plaintext = 48 ->
      from body 32 = sub dst 32 48
      /\ (sub dst 32 48 <> from ciphertext 32 -> body <> ciphertext)).
Proof.
  intros Hpow Hr Hn Hd zeros authNonce authData n m body ciphertext tag.
  destruct (reachable_idle tagsize c Hr) as [Hi Hs].
  destruct (Seal_spec c dst nonce plaintext additionalData Hpow Hi Hn Hd)
    as (c1 & Hseal & Hlb).
  cbv zeta in Hseal, Hlb.
  pose proof (ctr_body_spec c dst nonce plaintext Hpow Hd) as Hbody. cbv zeta in Hbody.
  change (ctr_body c dst nonce plaintext = body) in Hbody.
  rewrite Hbody, Hs in Hseal. rewrite Hbody in Hlb.
  change (auth_tag nonce body additionalData tagsize) with tag in Hseal.
  pose proof (ChachaFacts.len_nonneg plaintext) as Hp0.
  pose proof BlockSize_pos as Hpos.
  split; [exists c1; exact Hseal|]. split; [exact Hlb|]. split; [|split].
  - apply (auth_tag_len nonce body additionalData tagsize).
    destruct Hi as (_ & _ & Hsz). lia.
  - intros H3. unfold body, ciphertext.
    destruct Hpow as (k & Hk & Hbs).
    destruct (mask_multiple k (len plaintext) Hk Hp0) as (b & Hb & Hnb & Hle).
    pose proof (mask_tail_short k (len plaintext) Hk ltac:(lia)) as Ht.
    rewrite <- Hbs in Hnb, Hle, Ht. fold n in Hnb, Ht.
    assert (Hm : m = len plaintext) by (unfold m; lia).
    rewrite Hm, (upto_all plaintext) by lia.
    replace (n / BlockSize) with b by (rewrite Hnb, Z.mul_comm, Z.div_mul; lia).
    assert (Hb2 : b <= 2) by nia.
    unfold sub. rewrite Z.sub_diag. change (upto (from dst (len plaintext)) 0) with (@nil byte).
    rewrite app_nil_r. symmetry.
    apply xor_bytes_stream_more; [apply digest_len|nia|lia].
  - intros Hbs Hp.
    assert (Hf : from body 32 = sub dst 32 48).
    { unfold body, m, n. rewrite Hp, Hbs.
      change (Z.land 48 (Z.lnot (48 - 16))) with 16.
      change (16 + Z.min (48 - 16) 16) with 32.
      change (S (Z.to_nat (16 / 16))) with 2%nat.
      set (x := xor_bytes (upto plaintext 32) (ctr_stream 2 authNonce)).
      assert (Hx : len x = 32).
      { unfold x. rewrite len_xor_bytes, len_upto, ctr_stream_len by (apply digest_len || lia).
        rewrite Hbs. reflexivity. }
      rewrite <- Hx. apply from_app_l. }
    split; [exact Hf|].
    intros Hne Heq. apply Hne. now rewrite <- Hf, Heq.
Qed.

(** *** [Seal] then [Open] *)

(** X13. For a block size that is a power of two, what [Seal] made of a
    plaintext shorter than three blocks, [Open] takes back to that
    plaintext, with the same nonce and additional data and any [dst] that
    holds the plaintext. *)
Theorem roundtrip_below_three_blocks (tagsize : Z) (c : eaxCipher)
    (dst nonce plaintext additionalData dst2 : list byte) :
  power_of_two BlockSize ->
  reachable tagsize c ->
  len nonce = BlockSize -> len plaintext <= len dst -> len plaintext <= len dst2 ->
  len plaintext < 3 * BlockSize ->
  exists c1 sealed c2 dst2',
    Seal c dst nonce plaintext additionalData = (c1, Ok sealed)
    /\ Open c1 dst2 nonce sealed additionalData = (c2, dst2', Ok (Val plaintext)).
Proof.
  intros Hpow Hr Hn Hd Hd2 H3.
  apply (roundtrip_when_tail_fits tagsize); try assumption.
  destruct Hpow as (k & Hk & Hbs). rewrite Hbs in *.
  apply mask_tail_short; [assumption|].
  pose proof (ChachaFacts.len_nonneg plaintext). lia.
Qed.


(** *** [Open] *)

Lemma Open_accepts (c : eaxCipher) (dst nonce ciphertext additionalData : list byte) :
  power_of_two BlockSize -> idle c ->
  len nonce = BlockSize -> size c <= len ciphertext ->
  len ciphertext - size c <= len dst ->
  auth_tag nonce (upto ciphertext (len ciphertext - size c)) additionalData (size c)
  = from ciphertext (len ciphertext - size c) ->
  exists c' dst',
    Open c dst nonce ciphertext additionalData
    = (c', dst', Ok (Val (upto dst' (len ciphertext - size c))))
    /\ len dst' = len dst.
Proof.
  intros Hpow Hi Hn Hs Hd Htag.
  assert (Hsz : 1 <= size c <= BlockSize) by (destruct Hi as (_ & _ & H); exact H).
  rewrite Open_spec by (assumption || (unfold mac_Size; lia)). cbv zeta.
  apply bytes_eqb_eq in Htag. rewrite Htag.
  assert (Hb : len (upto ciphertext (len ciphertext - size c)) = len ciphertext - size c)
    by (apply len_upto; lia).
  destruct (ctrCrypt_ok (with_ctr c (digest (prefix nTag ++ nonce))) dst
              (upto ciphertext (len ciphertext - size c)) Hpow)
    as (c' & dst' & Heq & Hl & _); [lia | cbn; apply digest_len |].
  rewrite Heq, Hb. destruct (len ciphertext - size c <=? len dst') eqn:E; [|lia].
  exists c', dst'. split; [reflexivity|assumption].
Qed.

(** X15. [Open] checks the nonce first: a nonce whose length is not
    [NonceSize()] gives the [NonceSizeError] of that length, for every
    ciphertext and [dst].  A ciphertext whose tag verifies is accepted when
    [dst] holds the plaintext, the block size a power of two: [Open] returns
    the first [len(ciphertext) - tagsize] bytes of [dst], which keeps its
    length. *)
Theorem Open_outcome_cases (tagsize : Z) (c : eaxCipher)
    (dst nonce ciphertext additionalData : list byte) :
  reachable tagsize c ->
  (len nonce <> NonceSize c ->
   Open c dst nonce ciphertext additionalData
   = (c, dst, Ok (Err (NonceSizeError (len nonce)))))
  /\ (power_of_two BlockSize ->
      len nonce = NonceSize c -> tagsize <= len ciphertext ->
      len ciphertext - tagsize <= len dst ->
      auth_tag nonce (upto ciphertext (len ciphertext - tagsize)) additionalData tagsize
      = from ciphertext (len ciphertext - tagsize) ->
      exists c' dst' out,
        Open c dst nonce ciphertext additionalData = (c', dst', Ok (Val out))
        /\ out = upto dst' (len ciphertext - tagsize)
        /\ len out = len ciphertext - tagsize
        /\ len dst' = len dst).
Proof.
  intros Hr. destruct (reachable_idle tagsize c Hr) as [Hi Hs].
  unfold NonceSize. split.
  - intros Hn. unfold Open.
    destruct (len nonce =? BlockSize) eqn:E; [lia|reflexivity].
  - intros Hpow Hn Hlen Hd Htag. rewrite <- Hs in *.
    destruct (Open_accepts c dst nonce ciphertext additionalData Hpow Hi Hn Hlen Hd Htag)
      as (c' & dst' & Heq & Hl).
    exists c', dst'. eexists. split; [exact Heq|]. split; [reflexivity|].
    split; [|assumption]. apply len_upto.
    destruct Hi as (_ & _ & Hsz). lia.
Qed.

(** X16. With a [dst] that holds [len(ciphertext) - tagsize] bytes and a
    block size that is a power of two, [Open] never panics: whatever the
    nonce, the ciphertext and the additional data are, it returns, with a
    plaintext or with an error. *)
Theorem Open_never_panics (tagsize : Z) (c : eaxCipher)
    (dst nonce ciphertext additionalData : list byte) :
  power_of_two BlockSize ->
  reachable tagsize c ->
  len ciphertext - tagsize <= len dst ->
  exists c' dst' r, Open c dst nonce ciphertext additionalData = (c', dst', Ok r).
Proof.
  intros Hpow Hr Hd. destruct (reachable_idle tagsize c Hr) as [Hi Hs].
  assert (Hsz : 1 <= size c <= BlockSize) by (destruct Hi as (_ & _ & H); exact H).
  rewrite <- Hs in Hd.
  destruct (Z.eq_dec (len nonce) BlockSize) as [Hn|Hn].
  2:{ exists c, dst. eexists. unfold Open.
      destruct (len nonce =? BlockSize) eqn:E; [lia|reflexivity]. }
  destruct (Z_lt_le_dec (len ciphertext) (size c)) as [Hshort|Hlong].
  { exists c, dst. eexists. unfold Open. rewrite Hn, Z.eqb_refl. cbn [negb].
    destruct (len ciphertext <? size c) eqn:E; [reflexivity|lia]. }
  destruct (list_eq_dec Z.eq_dec
              (auth_tag nonce (upto ciphertext (len ciphertext - size c))
                 additionalData (size c))
              (from ciphertext (len ciphertext - size c))) as [Htag|Htag].
  - destruct (Open_accepts c dst nonce ciphertext additionalData Hpow Hi Hn Hlong Hd Htag)
      as (c' & dst' & Heq & _).
    exists c', dst'. eexists. exact Heq.
  - exists c, dst. eexists.
    apply Open_mismatch; try assumption. unfold mac_Size. lia.
Qed.

(** *** The cipher between calls *)

(** X17. Whatever calls of [Seal] and [Open] a cipher made by [NewEAX]
    went through, the ones that panicked or returned an error included, its
    counter register is one block long, its MAC is reset, and [Overhead()]
    is the tag size it was made with, between 1 and the block size. *)
Theorem eax_invariant (tagsize : Z) (c : eaxCipher) :
  reachable tagsize c ->
  len (ctr c) = NonceSize c
  /\ mac c = []
  /\ Overhead c = tagsize
  /\ 1 <= tagsize <= BlockSize.
Proof.
  intros Hr. destruct (reachable_idle tagsize c Hr) as [(Hc & Hm & Hsz) Hs].
  unfold NonceSize, Overhead. repeat split; try assumption; lia.
Qed.

(** *** The empty plaintext *)

(** X18. For every block size, sealing the empty plaintext returns the tag
    alone, whatever [dst] is, and [Open] takes that tag back to the empty
    plaintext, leaving its [dst] as it was. *)
Theorem Seal_Open_empty (tagsize : Z) (c : eaxCipher)
    (dst nonce additionalData dst2 : list byte) :
  reachable tagsize c ->
  len nonce = BlockSize ->
  exists c1 c2,
    Seal c dst nonce [] additionalData
    = (c1, Ok (auth_tag nonce [] additionalData tagsize))
    /\ Open c1 dst2 nonce (auth_tag nonce [] additionalData tagsize) additionalData
       = (c2, dst2, Ok (Val [])).
Proof.
  intros Hr Hn. destruct (reachable_idle tagsize c Hr) as [Hi Hs].
  assert (Hsz : 1 <= tagsize <= BlockSize) by (destruct Hi as (_ & _ & H); lia).
  pose proof (ChachaFacts.len_nonneg dst) as Hd0.
  pose proof (ChachaFacts.len_nonneg dst2) as Hd2.
  pose proof (Seal_outcome c dst nonce [] additionalData Hi Hn Hd0) as Ho.
  cbv zeta in Ho. unfold ctr_body in Ho. rewrite ctrCrypt_nil in Ho.
  cbn [fst snd] in Ho. change (upto dst (len (@nil byte))) with (@nil byte) in Ho.
  cbn [app] in Ho. rewrite Hs in Ho.
  destruct (Seal_idle c dst nonce [] additionalData Hi) as [Hi1 Hs1].
  destruct (Seal c dst nonce [] additionalData) as [c1 r] eqn:Hseal.
  cbn [fst snd] in *. subst r.
  set (tag := auth_tag nonce [] additionalData tagsize) in *.
  assert (Ht : len tag = tagsize) by (now apply auth_tag_len).
  exists c1. eexists. split; [reflexivity|].
  rewrite Open_spec by (assumption || (unfold mac_Size; lia)). cbv zeta.
  rewrite Hs1, Hs, Ht, Z.sub_diag.
  change (upto tag 0) with (@nil byte). change (from tag 0) with tag. fold tag.
  rewrite (proj2 (bytes_eqb_eq tag tag) eq_refl), ctrCrypt_nil.
  change (len (@nil byte)) with 0.
  destruct (0 <=? len dst2) eqn:E; [reflexivity|lia].
Qed.

End WithCipher.

Lemma counter_increment_witness :
  len (increment (length [7; 255; 255]) [7; 255; 255]) = len [7; 255; 255]
  /\ Forall is_byte (increment (length [7; 255; 255]) [7; 255; 255])
  /\ be_value (increment (length [7; 255; 255]) [7; 255; 255])
     = (be_value [7; 255; 255] + 1) mod 256 ^ len [7; 255; 255].
Proof.
  apply (counter_increment [7; 255; 255]).
  apply ChachaProps.bytes_checked. reflexivity.
Defined.

Lemma ctrCrypt_counter_mode_witness :
  let n := Z.land (len (count_up 40)) (Z.lnot (len (count_up 40) - @BlockSize toy_block)) in
  let m := n + Z.min (len (count_up 40) - n) (@BlockSize toy_block) in
  0 <= m <= len (count_up 40)
  /\ (exists c',
        @ctrCrypt toy_block (toy_eax 16) (make 44) (count_up 40)
        = (c',
           xor_bytes (upto (count_up 40) m)
             (@ctr_stream toy_block (S (Z.to_nat (n / @BlockSize toy_block)))
                (ctr (toy_eax 16)))
           ++ from (make 44) m,
           Ok tt))
  /\ (len (count_up 40) < 3 * @BlockSize toy_block ->
      exists c',
        @ctrCrypt toy_block (toy_eax 16) (make 44) (count_up 40)
        = (c',
           xor_bytes (count_up 40) (@ctr_stream toy_block 3 (ctr (toy_eax 16)))
           ++ from (make 44) (len (count_up 40)),
           Ok tt)).
Proof.
  apply (@ctrCrypt_counter_mode toy_block (toy_eax 16) (make 44) (count_up 40)).
  - exact toy_power_of_two.
  - vm_compute. discriminate.
  - reflexivity.
Defined.

Lemma Seal_outcome_cases_witness :
  @Seal toy_block toy_mac (toy_eax 4) (make 20) (make 5) (count_up 17) []
  = (toy_eax 4, Panic (ErrorValue (NonceSizeError (len (make 5)))))
  /\ @Seal toy_block toy_mac (toy_eax 4) (make 3) (make 16) (count_up 17) []
     = (toy_eax 4, Panic (Msg "dst buffer to small"))
  /\ exists c' out,
       @Seal toy_block toy_mac (toy_eax 4) (make 20) (make 16) (count_up 17) [] = (c', Ok out)
       /\ len out = len (count_up 17) + Overhead (toy_eax 4)
       /\ Overhead (toy_eax 4) = 4.
Proof.
  assert (Hr : @reachable toy_block toy_mac 4 (toy_eax 4)) by (apply toy_reachable; lia).
  split; [|split].
  - apply (@Seal_outcome_cases toy_block toy_mac 4 (toy_eax 4)
             (make 20) (make 5) (count_up 17) [] Hr).
    vm_compute. discriminate.
  - apply (@Seal_outcome_cases toy_block toy_mac 4 (toy_eax 4)
             (make 3) (make 16) (count_up 17) [] Hr).
    + reflexivity.
    + vm_compute. reflexivity.
  - apply (@Seal_outcome_cases toy_block toy_mac 4 (toy_eax 4)
             (make 20) (make 16) (count_up 17) [] Hr).
    + reflexivity.
    + vm_compute. discriminate.
    + exact toy_power_of_two.
Defined.

Lemma Seal_below_three_blocks_witness :
  let body :=
    xor_bytes (count_up 40)
      (@ctr_stream toy_block 3 (@digest toy_block toy_mac (@prefix toy_block nTag ++ make 16))) in
  exists c',
    @Seal toy_block toy_mac (toy_eax 4) (make 40) (make 16) (count_up 40) [9; 9]
    = (c', Ok (body ++ @auth_tag toy_block toy_mac (make 16) body [9; 9] 4)).
Proof.
  apply (@Seal_below_three_blocks toy_block toy_mac 4 (toy_eax 4)
           (make 40) (make 16) (count_up 40) [9; 9]).
  - exact toy_power_of_two.
  - apply toy_reachable. lia.
  - reflexivity.
  - vm_compute. discriminate.
  - vm_compute. reflexivity.
Defined.

Lemma roundtrip_below_three_blocks_witness :
  exists c1 sealed c2 dst2',
    @Seal toy_block toy_mac (toy_eax 4) (make 47) (make 16) (count_up 47) [9; 9]
    = (c1, Ok sealed)
    /\ @Open toy_block toy_mac c1 (make 50) (make 16) sealed [9; 9]
       = (c2, dst2', Ok (Val (count_up 47))).
Proof.
  apply (@roundtrip_below_three_blocks toy_block toy_mac 4 (toy_eax 4)
           (make 47) (make 16) (count_up 47) [9; 9] (make 50)).
  - exact toy_power_of_two.
  - apply toy_reachable. lia.
  - reflexivity.
  - vm_compute. discriminate.
  - vm_compute. discriminate.
  - vm_compute. reflexivity.
Defined.


Lemma Open_outcome_cases_witness :
  @Open toy_block toy_mac (toy_eax 4) (make 16) (make 3) toy_sealed []
  = (toy_eax 4, make 16, Ok (Err (NonceSizeError (len (make 3)))))
  /\ exists c' dst' out,
       @Open toy_block toy_mac (toy_eax 4) (make 16) (make 16) toy_sealed []
       = (c', dst', Ok (Val out))
       /\ out = upto dst' (len toy_sealed - 4)
       /\ len out = len toy_sealed - 4
       /\ len dst' = len (make 16).
Proof.
  assert (Hr : @reachable toy_block toy_mac 4 (toy_eax 4)) by (apply toy_reachable; lia).
  split.
  - apply (@Open_outcome_cases toy_block toy_mac 4 (toy_eax 4)
             (make 16) (make 3) toy_sealed [] Hr).
    vm_compute. discriminate.
  - apply (@Open_outcome_cases toy_block toy_mac 4 (toy_eax 4)
             (make 16) (make 16) toy_sealed [] Hr).
    + exact toy_power_of_two.
    + reflexivity.
    + vm_compute. discriminate.
    + vm_compute. discriminate.
    + vm_compute. reflexivity.
Defined.

Lemma Open_never_panics_witness :
  exists c' dst' r,
    @Open toy_block toy_mac (toy_eax 4) (make 16) (make 16) forged [] = (c', dst', Ok r).
Proof.
  apply (@Open_never_panics toy_block toy_mac 4 (toy_eax 4) (make 16) (make 16) forged []).
  - exact toy_power_of_two.
  - apply toy_reachable. lia.
  - vm_compute. discriminate.
Defined.

Lemma eax_invariant_witness :
  len (ctr toy_eax_used) = @NonceSize toy_block toy_eax_used
  /\ mac toy_eax_used = []
  /\ Overhead toy_eax_used = 16
  /\ 1 <= 16 <= @BlockSize toy_block.
Proof.
  apply (@eax_invariant toy_block toy_mac 16 toy_eax_used).
  unfold toy_eax_used. apply reach_Seal, toy_reachable. lia.
Defined.

Lemma Seal_Open_empty_witness :
  exists c1 c2,
    @Seal toy_block toy_mac (toy_eax 4) [] (make 16) [] [9; 9]
    = (c1, Ok (@auth_tag toy_block toy_mac (make 16) [] [9; 9] 4))
    /\ @Open toy_block toy_mac c1 [] (make 16)
         (@auth_tag toy_block toy_mac (make 16) [] [9; 9] 4) [9; 9]
       = (c2, [], Ok (Val [])).
Proof.
  apply (@Seal_Open_empty toy_block toy_mac 4 (toy_eax 4) [] (make 16) [9; 9] []).
  - apply toy_reachable. lia.
  - reflexivity.
Defined.

Lemma Seal_ciphertext_and_tag_witness :
  let zeros := make (@BlockSize toy_block - 1) in
  let authNonce := toy_digest ((zeros ++ [0]) ++ make 16) in
  let authData := toy_digest ((zeros ++ [1]) ++ [9; 9]) in
  let n := Z.land (len (count_up 48)) (Z.lnot (len (count_up 48) - @BlockSize toy_block)) in
  let m := n + Z.min (len (count_up 48) - n) (@BlockSize toy_block) in
  let body :=
    xor_bytes (upto (count_up 48) m)
      (@ctr_stream toy_block (S (Z.to_nat (n / @BlockSize toy_block))) authNonce)
    ++ sub (make 48) m (len (count_up 48)) in
  let ciphertext := xor_bytes (count_up 48) (@ctr_stream toy_block 3 authNonce) in
  let tag :=
    upto (xor_bytes (toy_digest ((zeros ++ [2]) ++ body)) (xor_bytes authData authNonce)) 4 in
  (exists c1,
     @Seal toy_block toy_mac (toy_eax 4) (make 48) (make 16) (count_up 48) [9; 9]
     = (c1, Ok (body ++ tag)))
  /\ from body 32 = sub (make 48) 32 48
  /\ body <> ciphertext.
Proof.
  destruct (@Seal_ciphertext_and_tag toy_block toy_mac 4 (toy_eax 4)
              (make 48) (make 16) (count_up 48) [9; 9])
    as (Hseal & _ & _ & _ & Hstale).
  - exact toy_power_of_two.
  - apply toy_reachable. lia.
  - reflexivity.
  - vm_compute. discriminate.
  - destruct (Hstale eq_refl eq_refl) as [Hf Hne].
    split; [exact Hseal|]. split; [exact Hf|].
    apply Hne. vm_compute. discriminate.
Defined.

End EAXProps.
